(** * data_loader.py: the train/validation split and the batch packer

    A shallow embedding of [MySet] (the line-oriented dataset with its seeded
    validation split), of [_pack_time_series] and of [collate_fn], with the
    Python exceptions they can raise made explicit in the result type and
    the floating-point arithmetic of Python and of the tensors written out. *)

From Stdlib Require Import ZArith QArith Qround Qabs Qpower Qreduction Lia Lqa.
From stdpp Require Import gmap strings list.

Open Scope Z_scope.

(** ** Exceptions and results *)

Inductive exn : Set :=
| FileNotFoundError
| ValueError
| IndexError
| KeyError
| TypeError
| OverflowError
| JSONDecodeError.

Inductive result (A : Type) : Type :=
| Ok (a : A)
| Err (e : exn).
Arguments Ok {A} a.
Arguments Err {A} e.

#[global] Instance result_ret : MRet result := fun _ a => Ok a.
#[global] Instance result_bind : MBind result := fun _ _ f m =>
  match m with Ok a => f a | Err e => Err e end.
#[global] Instance result_fmap : FMap result := fun _ _ f m =>
  match m with Ok a => Ok (f a) | Err e => Err e end.

Definition is_Ok {A} (m : result A) : Prop := ∃ a, m = Ok a.
Definition is_Err {A} (m : result A) : Prop := ∃ e, m = Err e.

(** ** Numbers

    A Python float is an IEEE 754 binary64 number, and the elements of a
    [torch.float32] tensor are binary32 numbers.  The finite ones are
    represented by the rationals they are; rounding is to nearest, halves to
    the even neighbour. *)

(** [round(x)] of a finite float, to an integer: to nearest, halves to the
    even neighbour. *)
Definition py_round (x : Q) : Z :=
  let f := Qfloor x in
  match (x - inject_Z f ?= 1 # 2)%Q with
  | Lt => f
  | Gt => f + 1
  | Eq => if Z.even f then f else f + 1
  end.

(** A binary format: [prec] bits of precision, a last place no finer than
    [2^emin], and finite values of magnitude below [2^emax]. *)
Record format : Set := { prec : Z; emin : Z; emax : Z }.

Definition binary64 : format := {| prec := 53; emin := -1074; emax := 1024 |}.
Definition binary32 : format := {| prec := 24; emin := -149; emax := 128 |}.

(** The position of the leading bit of a positive rational: the [k] with
    [2^k <= x < 2^(k+1)]. *)
Definition ilog2 (x : Q) : Z :=
  let k := Z.log2 (Qnum x) - Z.log2 (Zpos (Qden x)) in
  if Qle_bool (2 ^ k) x then k else k - 1.

(** The exponent of the last place of the floats around a positive [x]. *)
Definition quantum (fmt : format) (x : Q) : Z :=
  Z.max (ilog2 x - (prec fmt - 1)) (emin fmt).

(** Round a positive rational to the nearest multiple of its quantum,
    halves to the even multiple. *)
Definition nearest (fmt : format) (x : Q) : Q :=
  let e := quantum fmt x in
  Qred (inject_Z (py_round (x / 2 ^ e)) * 2 ^ e).

(** Round to nearest, halves to even, whatever the magnitude. *)
Definition rne (fmt : format) (x : Q) : Q :=
  match (x ?= 0)%Q with
  | Eq => 0
  | Gt => nearest fmt x
  | Lt => - nearest fmt (- x)
  end%Q.

(** A float: a number, an infinity, or not-a-number.  Where a float is
    handed to the program, as an argument or in a decoded line, [Fin q]
    stands for the number written [q], and [double] below is the float it is
    read as.  The sign of a zero is not represented. *)
Inductive float : Set :=
| Fin (q : Q)
| Inf (negative : bool)
| NaN.

Bind Scope Q_scope with float.
Coercion Fin : Q >-> float.

Definition Qnegative (q : Q) : bool := negb (Qle_bool 0 q).

(** The float of a format nearest to a number: what rounds to the magnitude
    [2^emax] or beyond is an infinity. *)
Definition to_format (fmt : format) (x : float) : float :=
  match x with
  | Fin q =>
      let r := rne fmt q in
      if Qle_bool (2 ^ emax fmt) (Qabs r) then Inf (Qnegative r) else Fin r
  | _ => x
  end.

Definition double : float → float := to_format binary64.
Definition single : float → float := to_format binary32.

(** [x * y] on floats. *)
Definition float_mul (x y : float) : float :=
  match x, y with
  | NaN, _ | _, NaN => NaN
  | Inf s, Inf s' => Inf (xorb s s')
  | Inf s, Fin q | Fin q, Inf s =>
      if Qeq_bool q 0 then NaN else Inf (xorb s (Qnegative q))
  | Fin a, Fin b => double (Fin (a * b))
  end.

(** The least magnitude at which an integer no longer converts to a float. *)
Definition DBL_OVERFLOW : Z := 2 ^ 1024 - 2 ^ 970.

(** [float(z)], the conversion applied to the integer operand of [z * x]
    and to an integer stored in a floating-point tensor. *)
Definition float_of_int (z : Z) : result float :=
  if decide (Z.abs z < DBL_OVERFLOW) then Ok (double (Fin (inject_Z z)))
  else Err OverflowError.

(** [round(x)] of a float. *)
Definition float_round (x : float) : result Z :=
  match x with
  | Fin q => Ok (py_round q)
  | Inf _ => Err OverflowError
  | NaN => Err ValueError
  end.

(** The largest [Py_ssize_t], the type of the length of a list, which is
    also the largest [numpy.intp]. *)
Definition PY_SSIZE_T_MAX : Z := 2 ^ 63 - 1.

(** ** Python values

    What [json.loads] returns and what the comprehensions of the packer build:
    [None], booleans, integers, floats, strings, lists and dicts with string
    keys.  A dict is the list of its entries in insertion order, the order in
    which iterating it yields its keys, with one entry per key. *)

#[warnings="-register-all"]
Inductive value : Type :=
| PNone
| PBool (b : bool)
| PInt (z : Z)
| PFloat (x : float)
| PStr (s : string)
| PList (l : list value)
| PDict (kvs : list (string * value)).

Fixpoint dict_get (kvs : list (string * value)) (k : string) : option value :=
  match kvs with
  | [] => None
  | (k', v) :: kvs' => if String.eqb k k' then Some v else dict_get kvs' k
  end.

(** [d[k] = v]: overwrite the entry in place, or append a new one. *)
Fixpoint dict_set (kvs : list (string * value)) (k : string) (v : value)
  : list (string * value) :=
  match kvs with
  | [] => [(k, v)]
  | (k', v') :: kvs' =>
      if String.eqb k k' then (k', v) :: kvs' else (k', v') :: dict_set kvs' k v
  end.

(** [x[k]] for a string key [k]. *)
Definition subscript (x : value) (k : string) : result value :=
  match x with
  | PDict kvs =>
      match dict_get kvs k with
      | Some v => Ok v
      | None => Err KeyError
      end
  | _ => Err TypeError
  end.

(** [x[k] = v] for a string key [k]. *)
Definition store_subscript (x : value) (k : string) (v : value) : result value :=
  match x with
  | PDict kvs => Ok (PDict (dict_set kvs k v))
  | _ => Err TypeError
  end.

Definition chars (s : string) : list value :=
  (λ c, PStr (String c EmptyString)) <$> String.list_ascii_of_string s.

(** [for x in r]: the items a [for] clause runs over. *)
Definition iterate (r : value) : result (list value) :=
  match r with
  | PList l => Ok l
  | PDict kvs => Ok ((λ kv, PStr kv.1) <$> kvs)
  | PStr s => Ok (chars s)
  | _ => Err TypeError
  end.

(** [l[idx]] on a list: a negative index counts from the end. *)
Definition list_index {A} (l : list A) (idx : Z) : result A :=
  let n := Z.of_nat (length l) in
  let i := if decide (idx < 0) then idx + n else idx in
  if decide (0 ≤ i < n) then
    match l !! Z.to_nat i with
    | Some a => Ok a
    | None => Err IndexError
    end
  else Err IndexError.

(** ** The seeded generator

    [numpy.random.default_rng] and [Generator.choice] belong to NumPy.  Their
    argument checks are written out below, in the order in which [choice]
    makes them without replacement: an empty population, a size above the
    population, a negative size.  The drawn sample itself is a function of
    the seed, the population and the size, of which only the contract of
    sampling without replacement is used.  A size that does not fit a
    [numpy.intp] makes [choice] fail while it converts the size; which
    exception that is, is left to the library as well. *)

Class Sampler := {
  draw : Z → list Z → nat → list Z;
  draw_length : ∀ seed a k, (k ≤ length a)%nat → length (draw seed a k) = k;
  draw_submseteq : ∀ seed a k, (k ≤ length a)%nat → draw seed a k ⊆+ a;
  oversize : Z → exn;
}.

Record Generator : Set := { bit_seed : Z }.

Definition default_rng (seed : Z) : result Generator :=
  if decide (seed < 0) then Err ValueError else Ok {| bit_seed := seed |}.

Definition choice `{Sampler} (rng : Generator) (a : list Z) (size : Z)
  : result (list Z) :=
  let pop_size := Z.of_nat (length a) in
  if decide (pop_size = 0 ∧ size ≠ 0) then Err ValueError
  else if decide (size < - PY_SSIZE_T_MAX - 1 ∨ PY_SSIZE_T_MAX < size)
  then Err (oversize size)
  else if decide (pop_size < size) then Err ValueError
  else if decide (size < 0) then Err ValueError
  else Ok (draw (bit_seed rng) a (Z.to_nat size)).

Definition arange (n : Z) : list Z := seqZ 0 n.

(** ** The dataset *)

(** A line of the file, as [json.loads] sees it: text it rejects, or text
    it decodes to a value. *)
Inductive line : Type :=
| Undecodable
| Decodes (v : value).

Definition json_loads (l : line) : result value :=
  match l with
  | Undecodable => Err JSONDecodeError
  | Decodes v => Ok v
  end.

(** The file system is a finite map from paths to the lines of a file.  The
    length of the list [readlines] returns is a [Py_ssize_t]: a file of the
    model has at most [PY_SSIZE_T_MAX] lines. *)
Definition within_ssize (files : gmap string (list line)) : bool :=
  forallb (λ kv, Z.of_nat (length kv.2) <=? PY_SSIZE_T_MAX) (map_to_list files).

Record FileSystem : Type := {
  fs_files : gmap string (list line);
  fs_within : within_ssize fs_files = true;
}.

#[global] Instance FileSystem_lookup : Lookup string (list line) FileSystem :=
  λ path fs, fs_files fs !! path.

Module MySet.

Record t : Type := { content : list line; val_indices : gset Z }.

(** [max(1, int(round(n * val_ratio)))]: the integer [n] is converted to a
    float, the product is the float nearest to the exact product, and
    [round] raises OverflowError on an infinite product and ValueError on one
    that is not a number. *)
Definition val_sz (n : Z) (val_ratio : float) : result Z :=
  x ← float_of_int n;
  r ← float_round (float_mul x (double val_ratio));
  Ok (Z.max 1 r).

(** The size [val_sz] yields for a float written [val_ratio], whenever it
    yields one (see [val_sz_Ok_val_size]): the roundings alone, without the
    infinities. *)
Definition val_size (n : Z) (val_ratio : Q) : Z :=
  Z.max 1 (py_round (rne binary64 (rne binary64 (inject_Z n)
                                   * rne binary64 val_ratio))).

Definition __init__ `{Sampler} (fs : FileSystem)
    (path : string) (val_ratio : float) (seed : Z) : result t :=
  match fs !! path with
  | None => Err FileNotFoundError
  | Some lines =>
      let n := Z.of_nat (length lines) in
      let indices := arange n in
      rng ← default_rng seed;
      sz ← val_sz n val_ratio;
      val ← choice rng indices sz;
      Ok {| content := lines; val_indices := list_to_set val |}
  end.

Definition __len__ (self : t) : Z := Z.of_nat (length (content self)).

Definition __getitem__ (self : t) (idx : Z) : result value :=
  l ← list_index (content self) idx;
  rec ← json_loads l;
  store_subscript rec "is_train"
    (PInt (if decide (idx ∈ val_indices self) then 0 else 1)).

End MySet.

(** ** Tensors

    [torch.tensor(data, dtype=...)] belongs to PyTorch.  It reads the shape
    off the first item at every nesting level, allocates, and then, unless the
    shape holds no element at all, copies the items in row-major order while
    checking every sequence against the shape and narrowing every number to
    the element type.  A tensor is represented by its element type, its shape
    and its elements in row-major order. *)

Inductive dtype : Set := Float32 | Float64.

Record Tensor : Type := {
  t_dtype : dtype;
  shape : list nat;
  data : list float;
}.

Definition MAX_DIMS : nat := 128.

Fixpoint compute_sizes (seq : value) : result (list nat) :=
  match seq with
  | PList [] => Ok [0%nat]
  | PList (x :: l) => (λ s, S (length l) :: s) <$> compute_sizes x
  | PStr EmptyString => Ok [0%nat]
  | PStr _ => Err ValueError
  | _ => Ok []
  end.

Definition numel (sizes : list nat) : nat := foldr Nat.mul 1%nat sizes.

(** The double a Python number is. *)
Definition unpack_double (obj : value) : result float :=
  match obj with
  | PFloat x => Ok (double x)
  | PInt z => float_of_int z
  | PBool b => Ok (Fin (if b then 1 else 0))
  | _ => Err TypeError
  end.

(** The narrowing of a double to the element type. *)
Definition cast (dt : dtype) (x : float) : float :=
  match dt with
  | Float32 => single x
  | Float64 => x
  end.

Definition store_scalar (dt : dtype) (obj : value) : result float :=
  x ← unpack_double obj; Ok (cast dt x).

Fixpoint recursive_store (dt : dtype) (sizes : list nat) (obj : value)
  : result (list float) :=
  match sizes with
  | [] => x ← store_scalar dt obj; Ok [x]
  | n :: sizes' =>
      items ← iterate obj;
      if decide (length items = n)
      then rows ← mapM (recursive_store dt sizes') items; Ok (concat rows)
      else Err ValueError
  end.

Definition torch_tensor (data : list value) (dt : dtype) : result Tensor :=
  sizes ← compute_sizes (PList data);
  if decide (MAX_DIMS < length sizes)%nat then Err ValueError
  else
    d ← (if decide (numel sizes = 0%nat) then Ok []
         else recursive_store dt sizes (PList data));
    Ok {| t_dtype := dt; shape := sizes; data := d |}.

(** ** The packer *)

Record Packed : Type := {
  values : Tensor;
  masks : Tensor;
  deltas : Tensor;
  forwards : Tensor;
  evals : Tensor;
  eval_masks : Tensor;
}.

Record Batch : Type := {
  forward : Packed;
  backward : Packed;
  labels : Tensor;
  is_train : Tensor;
}.

(** [[x[k] for x in r]] *)
Definition inner_field (r : value) (k : string) : result value :=
  xs ← iterate r; PList <$> mapM (λ x, subscript x k) xs.

(** [[[x[k] for x in r] for r in recs]] *)
Definition nested_field (recs : list value) (k : string) : result (list value) :=
  mapM (λ r, inner_field r k) recs.

Definition _pack_time_series (recs : list value) : result Packed :=
  values ← nested_field recs "values";
  masks ← nested_field recs "masks";
  deltas ← nested_field recs "deltas";
  forwards ← nested_field recs "forwards";
  evals ← nested_field recs "evals";
  eval_ms ← nested_field recs "eval_masks";
  t_values ← torch_tensor values Float32;
  t_masks ← torch_tensor masks Float32;
  t_deltas ← torch_tensor deltas Float32;
  t_forwards ← torch_tensor forwards Float32;
  t_evals ← torch_tensor evals Float32;
  t_eval_masks ← torch_tensor eval_ms Float32;
  Ok {| values := t_values; masks := t_masks; deltas := t_deltas;
        forwards := t_forwards; evals := t_evals;
        eval_masks := t_eval_masks |}.

Definition collate_fn (recs : list value) : result Batch :=
  forward ← mapM (λ x, subscript x "forward") recs;
  backward ← mapM (λ x, subscript x "backward") recs;
  p_forward ← _pack_time_series forward;
  p_backward ← _pack_time_series backward;
  lbls ← mapM (λ x, subscript x "label") recs;
  t_labels ← torch_tensor lbls Float32;
  flags ← mapM (λ x, subscript x "is_train") recs;
  t_is_train ← torch_tensor flags Float32;
  Ok {| forward := p_forward; backward := p_backward;
        labels := t_labels; is_train := t_is_train |}.

(** ** Well-formed records

    The shapes the docstrings of [MySet] and [_pack_time_series] describe: a
    time step is a dict whose six fields are lists of [F] numbers, a sequence
    is a list of [T] time steps, an example carries a forward and a backward
    sequence, a label and the [is_train] flag. *)

Definition field_names : list string :=
  ["values"; "masks"; "deltas"; "forwards"; "evals"; "eval_masks"].

Definition is_number (v : value) : bool :=
  match v with
  | PFloat _ => true
  | PInt z => bool_decide (Z.abs z < DBL_OVERFLOW)
  | _ => false
  end.

Definition is_vector (F : nat) (v : value) : bool :=
  match v with
  | PList l => bool_decide (length l = F) && forallb is_number l
  | _ => false
  end.

Definition has_field (P : value → bool) (kvs : list (string * value))
    (k : string) : bool :=
  match dict_get kvs k with
  | Some v => P v
  | None => false
  end.

Definition is_timestep (F : nat) (x : value) : bool :=
  match x with
  | PDict kvs => forallb (has_field (is_vector F) kvs) field_names
  | _ => false
  end.

Definition is_sequence (T F : nat) (r : value) : bool :=
  match r with
  | PList l => bool_decide (length l = T) && forallb (is_timestep F) l
  | _ => false
  end.

Definition is_flag (v : value) : bool :=
  match v with
  | PInt 0 | PInt 1 => true
  | _ => false
  end.

Definition is_example (T F : nat) (x : value) : bool :=
  match x with
  | PDict kvs =>
      has_field (is_sequence T F) kvs "forward"
      && has_field (is_sequence T F) kvs "backward"
      && has_field is_number kvs "label"
      && has_field is_flag kvs "is_train"
  | _ => false
  end.

(** ** Shapes and entries

    [regular sizes v]: [v] is a nest of lists of numbers whose lengths are
    [sizes] at every level.  [typed d v]: [v] is a nest of lists of numbers of
    depth [d], of whatever lengths.  [flatten dt d v] lists the numbers of
    such a nest in row-major order, narrowed to [dt]. *)

Fixpoint regular (sizes : list nat) (v : value) : Prop :=
  match sizes with
  | [] => is_number v = true
  | n :: sizes' => ∃ l, v = PList l ∧ length l = n ∧ Forall (regular sizes') l
  end.

Fixpoint typed (d : nat) (v : value) : Prop :=
  match d with
  | O => is_number v = true
  | S d' => ∃ l, v = PList l ∧ Forall (typed d') l
  end.

Fixpoint flatten (dt : dtype) (d : nat) (v : value) : list float :=
  match d with
  | O => match store_scalar dt v with Ok x => [x] | Err _ => [] end
  | S d' => match v with PList l => concat (flatten dt d' <$> l) | _ => [] end
  end.

(** Every extent but the last is positive: the shapes that can be read off
    first items. *)
Fixpoint inner_nonzero (sizes : list nat) : Prop :=
  match sizes with
  | [] => True
  | n :: sizes' =>
      match sizes' with
      | [] => True
      | _ :: _ => n ≠ 0%nat ∧ inner_nonzero sizes'
      end
  end.

(** The block of [t] at index [b] of its first axis. *)
Definition entry (t : Tensor) (b : nat) : list float :=
  let w := numel (tail (shape t)) in
  take w (drop (b * w) (data t)).

(** Entry [b] of [t] is item [v], stored at the shape of one entry. *)
Definition comes_from (t : Tensor) (b : nat) (v : value) : Prop :=
  numel (shape t) ≠ 0%nat →
  recursive_store (t_dtype t) (tail (shape t)) v = Ok (entry t b).

Definition packed_fields : list (string * (Packed → Tensor)) :=
  [("values", values); ("masks", masks); ("deltas", deltas);
   ("forwards", forwards); ("evals", evals); ("eval_masks", eval_masks)].

Definition tensors (p : Packed) : list Tensor :=
  (λ f, f.2 p) <$> packed_fields.

Definition seq_length (r : value) : nat :=
  match r with
  | PList l => length l
  | _ => 0
  end.

(** The feature count of a time step, read off its [values]. *)
Definition width (x : value) : nat :=
  match x with
  | PDict kvs =>
      match dict_get kvs "values" with
      | Some (PList l) => length l
      | _ => 0
      end
  | _ => 0
  end.

(** A list of time steps, each with a feature count of its own. *)
Definition is_any_sequence (r : value) : bool :=
  match r with
  | PList l => forallb (λ x, is_timestep (width x) x) l
  | _ => false
  end.

Definition items (r : value) : list value :=
  match r with
  | PList l => l
  | _ => []
  end.

(** All time steps of a batch of sequences. *)
Definition steps (recs : list value) : list value := recs ≫= items.

(** The shape of a field over [B] sequences of [T] steps of [F] features:
    with no step to read a feature count from, the last axis is missing. *)
Definition field_shape (B T F : nat) : list nat :=
  if decide (T = 0%nat) then [B; 0%nat] else [B; T; F].

(** ** A small dataset for the examples *)

Definition sample_step (a b : Q) : value :=
  PDict [("values", PList [PFloat a; PFloat b]);
         ("masks", PList [PInt 1; PInt 0]);
         ("deltas", PList [PFloat 0; PFloat 1]);
         ("forwards", PList [PFloat a; PFloat a]);
         ("evals", PList [PFloat a; PFloat b]);
         ("eval_masks", PList [PInt 0; PInt 1])].

(** A decoded line with [T] time steps of two features each. *)
Definition sample_record (T : nat) (label : Q) : value :=
  PDict [("forward", PList (replicate T (sample_step (1 # 2) (3 # 4))));
         ("backward", PList (replicate T (sample_step (3 # 4) (1 # 2))));
         ("label", PFloat label)].

(** What [MySet.__getitem__] returns for such a line. *)
Definition sample_example (T : nat) (label : Q) (flag : Z) : value :=
  PDict [("forward", PList (replicate T (sample_step (1 # 2) (3 # 4))));
         ("backward", PList (replicate T (sample_step (3 # 4) (1 # 2))));
         ("label", PFloat label);
         ("is_train", PInt flag)].

Definition sample_lines : list line :=
  [Decodes (sample_record 3 1); Decodes (sample_record 3 0);
   Decodes (sample_record 3 0); Decodes (sample_record 3 1);
   Decodes (sample_record 3 0)].

Definition sample_path : string := "./json/json".

Definition sample_fs : FileSystem :=
  {| fs_files := {[ sample_path := sample_lines ]}; fs_within := eq_refl |}.

(** The same number of lines, none of which decodes. *)
Definition junk_fs : FileSystem :=
  {| fs_files := {[ "junk.jsonl" := replicate 5 Undecodable ]};
     fs_within := eq_refl |}.

(** A file without lines. *)
Definition empty_fs : FileSystem :=
  {| fs_files := {[ sample_path := [] ]}; fs_within := eq_refl |}.

(** What construction over [sample_fs] yields with [val_ratio = 1/2] and
    [seed = 42] under the reference sampler of the examples. *)
Definition sample_set : MySet.t :=
  {| MySet.content := sample_lines; MySet.val_indices := list_to_set [2; 3] |}.

(** A line that decodes to an object without [forward] and [backward]. *)
Definition bare_set : MySet.t :=
  {| MySet.content := [Decodes (PDict [("label", PFloat 1)])];
     MySet.val_indices := list_to_set [0] |}.

Definition empty_tensor : Tensor :=
  {| t_dtype := Float32; shape := [0%nat]; data := [] |}.

Definition empty_packed : Packed :=
  {| values := empty_tensor; masks := empty_tensor; deltas := empty_tensor;
     forwards := empty_tensor; evals := empty_tensor;
     eval_masks := empty_tensor |}.

(** The batch of no example. *)
Definition empty_batch : Batch :=
  {| forward := empty_packed; backward := empty_packed;
     labels := empty_tensor; is_train := empty_tensor |}.

(** Two examples of three steps, labelled 1 and 0, and their batch. *)
Definition sample_pair : list value :=
  [sample_example 3 1 1; sample_example 3 0 0].

Definition sample_batch : Batch :=
  Eval vm_compute in
    match collate_fn sample_pair with
    | Ok batch => batch
    | Err _ => empty_batch
    end.

(** Two examples of two steps, all steps different, labelled 1 and 0, and
    their batch. *)
Definition ordered_example_0 : value :=
  PDict [("forward", PList [sample_step (1 # 10) 2; sample_step 3 4]);
         ("backward", PList [sample_step 3 4; sample_step (1 # 10) 2]);
         ("label", PFloat 1);
         ("is_train", PInt 1)].

Definition ordered_example_1 : value :=
  PDict [("forward", PList [sample_step 5 6; sample_step 7 (1 # 3)]);
         ("backward", PList [sample_step 7 (1 # 3); sample_step 5 6]);
         ("label", PFloat 0);
         ("is_train", PInt 0)].

Definition ordered_pair : list value := [ordered_example_0; ordered_example_1].

Definition ordered_batch : Batch :=
  Eval vm_compute in
    match collate_fn ordered_pair with
    | Ok batch => batch
    | Err _ => empty_batch
    end.

(** ** The loader

    [get_loader] builds the dataset with its default arguments and hands it to
    [torch.utils.data.DataLoader].  The host supplies the files,
    [os.cpu_count()] (an integer, or [None]) and [torch.cuda.is_available()].
    Of the [DataLoader] the argument checks of its constructor are written
    out, together with the way it consumes its arguments: the batch sampler
    cuts the order of indices into batches, and each batch of indices is
    fetched from the dataset and handed to [collate_fn]. *)

Record Host : Type := {
  files : FileSystem;
  cpu_count : option Z;
  cuda_available : bool;
}.

Record DataLoader : Type := {
  dataset : MySet.t;
  batch_size : Z;
  num_workers : Z;
  shuffle : bool;
  pin_memory : bool;
  loader_collate_fn : list value → result Batch;
  drop_last : bool;
}.

(** [DataLoader(dataset=..., batch_size=..., ...)]: a negative worker count,
    shuffling an empty dataset and a batch size below 1 are rejected. *)
Definition new_DataLoader (dataset : MySet.t) (batch_size num_workers : Z)
    (shuffle pin_memory : bool) (collate : list value → result Batch)
    (drop_last : bool) : result DataLoader :=
  if decide (num_workers < 0) then Err ValueError
  else if shuffle && bool_decide (MySet.__len__ dataset ≤ 0) then Err ValueError
  else if decide (batch_size ≤ 0) then Err ValueError
  else Ok {| dataset := dataset; batch_size := batch_size;
             num_workers := num_workers; shuffle := shuffle;
             pin_memory := pin_memory; loader_collate_fn := collate;
             drop_last := drop_last |}.

(** [x or 2] on what [os.cpu_count()] returns. *)
Definition or_2 (x : option Z) : Z :=
  match x with
  | Some c => if decide (c = 0) then 2 else c
  | None => 2
  end.

Definition get_loader `{Sampler} (host : Host) (batch_size : Z) (shuffle : bool)
  : result DataLoader :=
  data_set ← MySet.__init__ (files host) "./json/json" (1 # 5) 42;
  let max_suggested := 2 in
  let cpu_cnt := or_2 (cpu_count host) in
  let num_workers := Z.min max_suggested cpu_cnt in
  new_DataLoader data_set batch_size num_workers shuffle (cuda_available host)
    collate_fn false.

(** The batch sampler: indices are appended to the running batch, which is
    emitted when it reaches the batch size; what is left at the end is
    emitted unless [drop_last]. *)
Fixpoint batch_sampler (batch_size : nat) (drop_last : bool)
    (sampler batch : list Z) : list (list Z) :=
  match sampler with
  | [] =>
      if bool_decide (0 < length batch)%nat && negb drop_last then [batch]
      else []
  | idx :: sampler' =>
      let batch' := batch ++ [idx] in
      if decide (length batch' = batch_size)
      then batch' :: batch_sampler batch_size drop_last sampler' []
      else batch_sampler batch_size drop_last sampler' batch'
  end.

(** [collate_fn([dataset[idx] for idx in idxs])] *)
Definition fetch (loader : DataLoader) (idxs : list Z) : result Batch :=
  data ← mapM (MySet.__getitem__ (dataset loader)) idxs;
  loader_collate_fn loader data.

Definition batches (loader : DataLoader) (order : list Z) : list (list Z) :=
  batch_sampler (Z.to_nat (batch_size loader)) (drop_last loader) order [].

(** A host for the examples: the sample file, four processors, no GPU. *)
Definition sample_host : Host :=
  {| files := sample_fs; cpu_count := Some 4; cuda_available := false |}.

(** ** Further notions used by the properties *)

(** The fourteen tensors of a batch. *)
Definition batch_tensors (batch : Batch) : list Tensor :=
  labels batch :: is_train batch
    :: tensors (forward batch) ++ tensors (backward batch).

Definition is_dict (x : value) : bool :=
  match x with
  | PDict _ => true
  | _ => false
  end.

(** A list all of whose items are objects. *)
Definition is_dict_list (r : value) : bool :=
  match r with
  | PList l => forallb is_dict l
  | _ => false
  end.

Definition directions : list (string * (Batch → Packed)) :=
  [("forward", forward); ("backward", backward)].

(** What construction over [sample_fs] yields with [val_ratio = 1] and
    [seed = 42] under the reference sampler of the examples. *)
Definition full_set : MySet.t :=
  {| MySet.content := sample_lines;
     MySet.val_indices := list_to_set [2; 3; 4; 0; 1] |}.

(** The sample pair with one more entry in each record. *)
Definition sample_pair_with_id : list value :=
  [PDict [("id", PStr "a"); ("forward", PList (replicate 3 (sample_step (1 # 2) (3 # 4))));
          ("backward", PList (replicate 3 (sample_step (3 # 4) (1 # 2))));
          ("label", PFloat 1); ("is_train", PInt 1)];
   PDict [("forward", PList (replicate 3 (sample_step (1 # 2) (3 # 4))));
          ("backward", PList (replicate 3 (sample_step (3 # 4) (1 # 2))));
          ("label", PFloat 0); ("is_train", PInt 0); ("id", PStr "b")]].

(** What [get_loader] returns on the sample host for a batch size of 2,
    without shuffling, under the reference sampler of the examples. *)
Definition sample_loader : DataLoader :=
  {| dataset := {| MySet.content := sample_lines;
                   MySet.val_indices := list_to_set [2] |};
     batch_size := 2; num_workers := 2; shuffle := false;
     pin_memory := false; loader_collate_fn := collate_fn; drop_last := false |}.

(** The batch fetched for the indices 2 and 3. *)
Definition sample_fetch : Batch :=
  Eval vm_compute in
    match fetch sample_loader [2; 3] with
    | Ok batch => batch
    | Err _ => empty_batch
    end.

(** * Properties *)

(** ** The result monad *)

Lemma bind_Ok {A B} (f : A → result B) (m : result A) (b : B) :
  m ≫= f = Ok b ↔ ∃ a, m = Ok a ∧ f a = Ok b.
Proof.
  destruct m as [a|e]; simpl; split.
  - intros Hf. by exists a.
  - by intros (a' & [= ->] & Hf).
  - intros [=].
  - by intros (a' & [=] & _).
Qed.

Lemma mapM_Ok {A B} (f : A → result B) (l : list A) (k : list B) :
  mapM f l = Ok k ↔ Forall2 (λ x y, f x = Ok y) l k.
Proof.
  revert k. induction l as [|x l IH]; intros k; simpl.
  - split.
    + intros [= <-]. constructor.
    + intros Hk. by inversion Hk.
  - rewrite bind_Ok. split.
    + intros (y & Hy & Hrest). apply bind_Ok in Hrest as (k' & Hk' & [= <-]).
      constructor; [done|]. by apply IH.
    + intros Hk. inversion Hk as [|? y ? k' Hy Hk']; subst.
      exists y. split; [done|]. apply bind_Ok. exists k'.
      split; [by apply IH|done].
Qed.

Lemma mapM_Ok_fmap {A B} (f : A → result B) (g : A → B) (l : list A) :
  Forall (λ x, f x = Ok (g x)) l → mapM f l = Ok (g <$> l).
Proof.
  intros Hl. apply mapM_Ok. induction Hl; simpl; by constructor.
Qed.

Lemma mapM_Err_first {A B} (f : A → result B) (l1 l2 : list A) (x : A) e :
  Forall (λ y, is_Ok (f y)) l1 → f x = Err e → mapM f (l1 ++ x :: l2) = Err e.
Proof.
  intros Hl1 Hx. induction Hl1 as [|y l1 [b Hy] _ IH]; simpl.
  - by rewrite Hx.
  - by rewrite Hy, IH.
Qed.

(** ** Dicts *)

Lemma dict_get_set_eq kvs k v : dict_get (dict_set kvs k v) k = Some v.
Proof.
  induction kvs as [|[k' v'] kvs IH]; simpl.
  - by rewrite String.eqb_refl.
  - destruct (String.eqb k k') eqn:E; simpl; rewrite E; [done|apply IH].
Qed.

Lemma dict_get_set_ne kvs k k' v :
  k ≠ k' → dict_get (dict_set kvs k v) k' = dict_get kvs k'.
Proof.
  intros Hne. induction kvs as [|[k0 v0] kvs IH]; simpl.
  - destruct (String.eqb k' k) eqn:E; [|done].
    apply String.eqb_eq in E. congruence.
  - destruct (String.eqb k k0) eqn:E; simpl.
    + apply String.eqb_eq in E as ->.
      destruct (String.eqb k' k0) eqn:E'; [|done].
      apply String.eqb_eq in E'. congruence.
    + by rewrite IH.
Qed.

(** ** Rounding to an integer *)

Lemma py_round_floor (x : Q) : Qfloor x ≤ py_round x ≤ Qfloor x + 1.
Proof.
  unfold py_round.
  destruct (_ ?= _)%Q; [destruct (Z.even _)|..]; lia.
Qed.

(** [round] is within one half of its argument. *)
Lemma py_round_near (x : Q) :
  (x - (1 # 2) <= inject_Z (py_round x))%Q ∧ (inject_Z (py_round x) <= x + (1 # 2))%Q.
Proof.
  unfold py_round.
  pose proof (Qfloor_le x) as Hlo. pose proof (Qlt_floor x) as Hhi.
  rewrite inject_Z_plus in Hhi. change (inject_Z 1) with 1%Q in Hhi.
  destruct (Qcompare_spec (x - inject_Z (Qfloor x)) (1 # 2)) as [He|Hl|Hg].
  - destruct (Z.even (Qfloor x)).
    + split; lra.
    + rewrite inject_Z_plus. change (inject_Z 1) with 1%Q. split; lra.
  - split; lra.
  - rewrite inject_Z_plus. change (inject_Z 1) with 1%Q. split; lra.
Qed.

Lemma py_round_monotone (x y : Q) : (x <= y)%Q → py_round x ≤ py_round y.
Proof.
  intros Hxy. pose proof (Qfloor_resp_le _ _ Hxy) as Hf.
  pose proof (py_round_floor x) as Hx. pose proof (py_round_floor y) as Hy.
  destruct (decide (Qfloor x = Qfloor y)) as [E|E]; [|lia].
  unfold py_round in *. rewrite E in *.
  destruct (Qcompare_spec (x - inject_Z (Qfloor y)) (1 # 2)) as [He|Hl|Hg];
    destruct (Qcompare_spec (y - inject_Z (Qfloor y)) (1 # 2)) as [He'|Hl'|Hg'];
    try destruct (Z.even (Qfloor y)); try lia; exfalso; lra.
Qed.

#[global] Instance py_round_proper : Proper (Qeq ==> eq) py_round.
Proof.
  intros x y Hxy. apply Z.le_antisymm; apply py_round_monotone; lra.
Qed.

Lemma py_round_Z (z : Z) : py_round (inject_Z z) = z.
Proof.
  unfold py_round. rewrite Qfloor_Z.
  destruct (Qcompare_spec (inject_Z z - inject_Z z) (1 # 2)) as [He|Hl|Hg];
    [exfalso; lra|done|exfalso; lra].
Qed.


(** ** Powers of two *)

Lemma pow2_pos k : (0 < 2 ^ k)%Q.
Proof. by apply Qpower_0_lt. Qed.

Lemma pow2_plus a b : (2 ^ (a + b) == 2 ^ a * 2 ^ b)%Q.
Proof. by apply Qpower_plus. Qed.

Lemma pow2_le a b : a ≤ b → (2 ^ a <= 2 ^ b)%Q.
Proof. intros Hab. by apply Qpower_le_compat_l. Qed.

Lemma pow2_lt a b : a < b → (2 ^ a < 2 ^ b)%Q.
Proof. intros Hab. by apply Qpower_lt_compat_l. Qed.

Lemma pow2_lt_inv a b : (2 ^ a < 2 ^ b)%Q → a < b.
Proof. intros Hab. by eapply Qpower_lt_compat_l_inv. Qed.

Lemma pow2_Z k : 0 ≤ k → (inject_Z (2 ^ k) == 2 ^ k)%Q.
Proof. intros Hk. by rewrite Zpower_Qpower. Qed.

Lemma div_pow2 (x : Q) k : (x / 2 ^ k == x * 2 ^ (- k))%Q.
Proof. unfold Qdiv. by rewrite Qpower_opp. Qed.

Lemma pow2_cancel a b : (2 ^ (a - b) * 2 ^ b == 2 ^ a)%Q.
Proof. rewrite <- pow2_plus. by replace (a - b + b) with a by lia. Qed.

(** ** The leading bit *)

Lemma ilog2_spec (x : Q) :
  (0 < x)%Q → (2 ^ ilog2 x <= x)%Q ∧ (x < 2 ^ (ilog2 x + 1))%Q.
Proof.
  intros Hx. unfold ilog2. destruct x as [a b]. cbn [Qnum Qden].
  assert (0 < a) as Ha by (unfold Qlt in Hx; simpl in Hx; lia).
  destruct (Z.log2_spec a Ha) as [Ha1 Ha2].
  destruct (Z.log2_spec (Z.pos b) ltac:(lia)) as [Hb1 Hb2].
  pose proof (Z.log2_nonneg a) as Hla. pose proof (Z.log2_nonneg (Z.pos b)) as Hlb.
  set (la := Z.log2 a) in *. set (lb := Z.log2 (Z.pos b)) in *.
  set (x := a # b) in *.
  assert (x * inject_Z (Z.pos b) == inject_Z a)%Q as Hxb.
  { unfold x, Qeq. simpl. lia. }
  assert (2 ^ la <= inject_Z a)%Q as HA1.
  { rewrite <- pow2_Z by done. by rewrite <- Zle_Qle. }
  assert (inject_Z a < 2 ^ (la + 1))%Q as HA2.
  { rewrite <- pow2_Z by lia. rewrite <- Zlt_Qlt. by rewrite <- Z.add_1_r in Ha2. }
  assert (2 ^ lb <= inject_Z (Z.pos b))%Q as HB1.
  { rewrite <- pow2_Z by done. by rewrite <- Zle_Qle. }
  assert (inject_Z (Z.pos b) < 2 ^ (lb + 1))%Q as HB2.
  { rewrite <- pow2_Z by lia. rewrite <- Zlt_Qlt. by rewrite <- Z.add_1_r in Hb2. }
  pose proof (pow2_cancel (la + 1) lb) as Hhi.
  pose proof (pow2_cancel la (lb + 1)) as Hlo.
  replace (la + 1 - lb) with (la - lb + 1) in Hhi by lia.
  replace (la - (lb + 1)) with (la - lb - 1) in Hlo by lia.
  pose proof (pow2_pos lb) as Plb. pose proof (pow2_pos (lb + 1)) as Plb1.
  pose proof (pow2_pos (la - lb + 1)) as Pk1. pose proof (pow2_pos (la - lb - 1)) as Pk0.
  assert (x < 2 ^ (la - lb + 1))%Q as Hupper by nra.
  assert (2 ^ (la - lb - 1) <= x)%Q as Hlower by nra.
  destruct (Qle_bool (2 ^ (la - lb)) x) eqn:E.
  - apply Qle_bool_iff in E. done.
  - replace (la - lb - 1 + 1) with (la - lb) by lia. split; [done|].
    apply Qnot_le_lt. intros Hle. apply Qle_bool_iff in Hle. congruence.
Qed.

Lemma ilog2_monotone (x y : Q) : (0 < x)%Q → (x <= y)%Q → ilog2 x ≤ ilog2 y.
Proof.
  intros Hx Hxy. destruct (ilog2_spec x Hx) as [Hlo _].
  destruct (ilog2_spec y ltac:(lra)) as [_ Hhi].
  assert (2 ^ ilog2 x < 2 ^ (ilog2 y + 1))%Q as Hlt by lra.
  apply pow2_lt_inv in Hlt. lia.
Qed.

Lemma ilog2_lt (x : Q) k : (0 < x)%Q → (x < 2 ^ k)%Q → ilog2 x < k.
Proof.
  intros Hx Hk. destruct (ilog2_spec x Hx) as [Hlo _].
  apply pow2_lt_inv. lra.
Qed.

(** ** Rounding to nearest *)

Section rounding.
Context (fmt : format) (Hprec : 0 < prec fmt).

Lemma nearest_eq (x : Q) :
  (nearest fmt x == inject_Z (py_round (x / 2 ^ quantum fmt x)) * 2 ^ quantum fmt x)%Q.
Proof. unfold nearest. by rewrite Qred_correct. Qed.

Lemma nearest_nonneg (x : Q) : (0 <= x)%Q → (0 <= nearest fmt x)%Q.
Proof.
  intros Hx. rewrite nearest_eq. pose proof (pow2_pos (quantum fmt x)) as Hq.
  assert (0 ≤ py_round (x / 2 ^ quantum fmt x)) as Hr.
  { rewrite <- (py_round_Z 0). apply py_round_monotone.
    apply Qle_shift_div_l; [done|]. change (inject_Z 0) with 0%Q. lra. }
  apply Qmult_le_0_compat; [|lra]. by rewrite Zle_Qle in Hr.
Qed.

Lemma quantum_monotone (x y : Q) :
  (0 < x)%Q → (x <= y)%Q → quantum fmt x ≤ quantum fmt y.
Proof.
  intros Hx Hxy. unfold quantum. pose proof (ilog2_monotone x y Hx Hxy). lia.
Qed.

(** Below a power of two the rounded value stays below it. *)
Lemma nearest_le_pow2 (x : Q) k :
  (0 < x)%Q → (x <= 2 ^ k)%Q → quantum fmt x ≤ k → (nearest fmt x <= 2 ^ k)%Q.
Proof.
  intros Hx Hk He. rewrite nearest_eq. set (e := quantum fmt x) in *.
  pose proof (pow2_pos e) as Pe.
  assert (py_round (x / 2 ^ e) ≤ 2 ^ (k - e)) as Hr.
  { rewrite <- (py_round_Z (2 ^ (k - e))). apply py_round_monotone.
    rewrite pow2_Z by lia. apply Qle_shift_div_r; [done|].
    by rewrite pow2_cancel. }
  rewrite Zle_Qle, pow2_Z in Hr by lia.
  rewrite <- (pow2_cancel k e). apply Qmult_le_compat_r; [done|lra].
Qed.

(** From a power of two on the rounded value stays above it. *)
Lemma nearest_ge_pow2 (x : Q) k :
  (2 ^ k <= x)%Q → quantum fmt x ≤ k → (2 ^ k <= nearest fmt x)%Q.
Proof.
  intros Hk He. rewrite nearest_eq. set (e := quantum fmt x) in *.
  pose proof (pow2_pos e) as Pe.
  assert (2 ^ (k - e) ≤ py_round (x / 2 ^ e)) as Hr.
  { rewrite <- (py_round_Z (2 ^ (k - e))). apply py_round_monotone.
    rewrite pow2_Z by lia. apply Qle_shift_div_l; [done|].
    by rewrite pow2_cancel. }
  rewrite Zle_Qle, pow2_Z in Hr by lia.
  rewrite <- (pow2_cancel k e). apply Qmult_le_compat_r; [done|lra].
Qed.

Lemma nearest_monotone (x y : Q) :
  (0 < x)%Q → (x <= y)%Q → (nearest fmt x <= nearest fmt y)%Q.
Proof.
  intros Hx Hxy. pose proof (quantum_monotone x y Hx Hxy) as He.
  destruct (decide (quantum fmt x = quantum fmt y)) as [E|E].
  - rewrite !nearest_eq, E. set (e := quantum fmt y) in *.
    pose proof (pow2_pos e) as Pe.
    assert (py_round (x / 2 ^ e) ≤ py_round (y / 2 ^ e)) as Hr.
    { apply py_round_monotone. unfold Qdiv. apply Qmult_le_compat_r; [done|].
      apply Qlt_le_weak. by apply Qinv_lt_0_compat. }
    rewrite Zle_Qle in Hr. apply Qmult_le_compat_r; [done|lra].
  - assert (quantum fmt y = ilog2 y - (prec fmt - 1)) as Hy.
    { unfold quantum in *. lia. }
    assert (ilog2 x < ilog2 y) as Hl by (unfold quantum in *; lia).
    destruct (ilog2_spec x Hx) as [_ Hxhi].
    destruct (ilog2_spec y ltac:(lra)) as [Hylo _].
    pose proof (pow2_le (ilog2 x + 1) (ilog2 y) ltac:(lia)) as Hpow.
    apply Qle_trans with (2 ^ ilog2 y)%Q.
    + apply nearest_le_pow2; [done|lra|lia].
    + apply nearest_ge_pow2; [done|lia].
Qed.

(** A multiple of a power of two with fewer than [prec] bits is kept. *)
Lemma nearest_exact (x : Q) (m e : Z) :
  (x == inject_Z m * 2 ^ e)%Q → 0 < m < 2 ^ prec fmt → emin fmt ≤ e →
  (nearest fmt x == x)%Q.
Proof.
  intros Hxm Hm He. pose proof (pow2_pos e) as Pe.
  assert (0 < inject_Z m)%Q as Hm0.
  { change 0%Q with (inject_Z 0). rewrite <- Zlt_Qlt. lia. }
  assert (0 < x)%Q as Hx by (rewrite Hxm; by apply Qmult_lt_0_compat).
  assert (inject_Z m < 2 ^ prec fmt)%Q as Hm1.
  { rewrite <- pow2_Z by lia. rewrite <- Zlt_Qlt. lia. }
  assert (x < 2 ^ (prec fmt + e))%Q as Hlt.
  { rewrite Hxm, pow2_plus. by apply Qmult_lt_compat_r. }
  pose proof (ilog2_lt x _ Hx Hlt) as Hl.
  assert (quantum fmt x ≤ e) as Hq by (unfold quantum; lia).
  rewrite nearest_eq. set (q := quantum fmt x) in *.
  pose proof (pow2_pos q) as Pq.
  assert (x / 2 ^ q == inject_Z (m * 2 ^ (e - q)))%Q as Hint.
  { rewrite inject_Z_mult, pow2_Z by lia. rewrite Hxm, <- (pow2_cancel e q).
    field. lra. }
  rewrite Hint, py_round_Z, <- Hint. field. lra.
Qed.

Lemma rne_0 : rne fmt 0 = 0%Q.
Proof. done. Qed.

Lemma rne_nonneg (x : Q) : (0 <= x)%Q → (0 <= rne fmt x)%Q.
Proof.
  intros Hx. unfold rne. destruct (Qcompare_spec x 0) as [E|E|E]; [lra|lra|].
  apply nearest_nonneg. lra.
Qed.

Lemma rne_nonpos (x : Q) : (x <= 0)%Q → (rne fmt x <= 0)%Q.
Proof.
  intros Hx. unfold rne. destruct (Qcompare_spec x 0) as [E|E|E]; [lra| |lra].
  pose proof (nearest_nonneg (- x) ltac:(lra)). lra.
Qed.

Lemma rne_monotone (x y : Q) : (x <= y)%Q → (rne fmt x <= rne fmt y)%Q.
Proof.
  intros Hxy.
  destruct (Qlt_le_dec 0 x) as [Hx|Hx].
  - unfold rne. destruct (Qcompare_spec x 0) as [E|E|E]; [lra|lra|].
    destruct (Qcompare_spec y 0) as [E'|E'|E']; [lra|lra|].
    by apply nearest_monotone.
  - destruct (Qlt_le_dec 0 y) as [Hy|Hy].
    + pose proof (rne_nonpos x Hx). pose proof (rne_nonneg y ltac:(lra)). lra.
    + unfold rne. destruct (Qcompare_spec x 0) as [E|E|E]; [| |lra].
      * destruct (Qcompare_spec y 0) as [E'|E'|E']; [lra|lra|lra].
      * destruct (Qcompare_spec y 0) as [E'|E'|E']; [| |lra].
        -- pose proof (nearest_nonneg (- x) ltac:(lra)). lra.
        -- pose proof (nearest_monotone (- y) (- x) ltac:(lra) ltac:(lra)). lra.
Qed.

Lemma rne_exact (x : Q) (m e : Z) :
  (x == inject_Z m * 2 ^ e)%Q → Z.abs m < 2 ^ prec fmt → emin fmt ≤ e →
  (rne fmt x == x)%Q.
Proof.
  intros Hxm Hm He. pose proof (pow2_pos e) as Pe. unfold rne.
  destruct (Qcompare_spec x 0) as [E|E|E]; [lra| |].
  - assert (m < 0) as Hneg.
    { destruct (decide (m < 0)) as [|Hge]; [done|]. exfalso.
      assert (0 <= inject_Z m)%Q.
      { change 0%Q with (inject_Z 0). rewrite <- Zle_Qle. lia. }
      assert (0 <= inject_Z m * 2 ^ e)%Q by (apply Qmult_le_0_compat; lra). lra. }
    rewrite (nearest_exact (- x) (- m) e); [lra| |lia|done].
    rewrite inject_Z_opp, Hxm. ring.
  - assert (0 < m) as Hpos.
    { destruct (decide (0 < m)) as [|Hle]; [done|]. exfalso.
      assert (inject_Z m <= 0)%Q.
      { change 0%Q with (inject_Z 0). rewrite <- Zle_Qle. lia. }
      nra. }
    apply (nearest_exact x m e); [done|lia|done].
Qed.

Lemma rne_pow2 k : emin fmt ≤ k → (rne fmt (2 ^ k) == 2 ^ k)%Q.
Proof.
  intros Hk. apply (rne_exact _ 1 k); [ring| |done].
  change (Z.abs 1) with (2 ^ 0). apply Z.pow_lt_mono_r; lia.
Qed.


End rounding.

(** ** Floats *)

Lemma binary64_prec : 0 < prec binary64.
Proof. done. Qed.

Lemma binary32_prec : 0 < prec binary32.
Proof. done. Qed.

Lemma Qle_bool_false (a b : Q) : (b < a)%Q → Qle_bool a b = false.
Proof.
  intros Hlt. destruct (Qle_bool a b) eqn:E; [|done].
  apply Qle_bool_iff in E. lra.
Qed.

Lemma Qeq_bool_false (a b : Q) : ¬ (a == b)%Q → Qeq_bool a b = false.
Proof.
  intros Hne. destruct (Qeq_bool a b) eqn:E; [|done].
  by apply Qeq_bool_iff in E.
Qed.

(** Within the range of the format the nearest float is finite. *)
Lemma to_format_Fin (fmt : format) (q : Q) :
  (- 2 ^ emax fmt < rne fmt q)%Q → (rne fmt q < 2 ^ emax fmt)%Q →
  to_format fmt (Fin q) = Fin (rne fmt q).
Proof.
  intros Hlo Hhi. unfold to_format. rewrite Qle_bool_false; [done|].
  by apply Qabs_Qlt_condition.
Qed.

Lemma double_Fin (q : Q) :
  (- 2 ^ 1024 < rne binary64 q)%Q → (rne binary64 q < 2 ^ 1024)%Q →
  double (Fin q) = Fin (rne binary64 q).
Proof. apply (to_format_Fin binary64). Qed.

Lemma rne_zero (fmt : format) (q : Q) : (q == 0)%Q → rne fmt q = 0%Q.
Proof. intros Hq. unfold rne. apply Qeq_alt in Hq. by rewrite Hq. Qed.

Lemma double_zero (q : Q) : (q == 0)%Q → double (Fin q) = Fin 0.
Proof.
  intros Hq. rewrite double_Fin; rewrite (rne_zero _ _ Hq); [done|..].
  - pose proof (pow2_pos 1024). lra.
  - apply pow2_pos.
Qed.

Lemma rne64_monotone (x y : Q) :
  (x <= y)%Q → (rne binary64 x <= rne binary64 y)%Q.
Proof. apply rne_monotone, binary64_prec. Qed.

Lemma rne64_one : rne binary64 1 = 1%Q.
Proof. vm_compute. reflexivity. Qed.

Lemma rne64_minus_one : rne binary64 (- (1)) = (- (1))%Q.
Proof. vm_compute. reflexivity. Qed.

(** The length of a list converts to a float of magnitude at most 2^63. *)
Lemma rne64_ssize (n : Z) :
  0 ≤ n ≤ PY_SSIZE_T_MAX →
  (0 <= rne binary64 (inject_Z n))%Q ∧ (rne binary64 (inject_Z n) <= 2 ^ 63)%Q.
Proof.
  intros Hn. split.
  - apply rne_nonneg. change 0%Q with (inject_Z 0). rewrite <- Zle_Qle. lia.
  - rewrite <- (rne_pow2 binary64 binary64_prec 63) by done.
    apply rne64_monotone. rewrite <- pow2_Z by lia. rewrite <- Zle_Qle.
    unfold PY_SSIZE_T_MAX in Hn. lia.
Qed.

Lemma rne64_bounded (x : Q) k :
  -1074 ≤ k → (- 2 ^ k <= x)%Q → (x <= 2 ^ k)%Q →
  (- 2 ^ k <= rne binary64 x)%Q ∧ (rne binary64 x <= 2 ^ k)%Q.
Proof.
  intros Hk Hlo Hhi. split.
  - rewrite <- (rne_exact binary64 binary64_prec (- 2 ^ k) (-1) k) at 1;
      [by apply rne64_monotone| |done..].
    change (inject_Z (-1)) with (- (1))%Q. ring.
  - rewrite <- (rne_pow2 binary64 binary64_prec k) by done.
    by apply rne64_monotone.
Qed.

Lemma ssize_converts (n : Z) : 0 ≤ n ≤ PY_SSIZE_T_MAX → Z.abs n < DBL_OVERFLOW.
Proof.
  intros Hn. assert (PY_SSIZE_T_MAX < DBL_OVERFLOW) by (vm_compute; reflexivity).
  lia.
Qed.

Lemma float_of_ssize (n : Z) :
  0 ≤ n ≤ PY_SSIZE_T_MAX →
  float_of_int n = Ok (Fin (rne binary64 (inject_Z n))).
Proof.
  intros Hn. unfold float_of_int.
  destruct (decide (Z.abs n < DBL_OVERFLOW)) as [_|Hbig];
    [|by destruct Hbig; apply ssize_converts].
  destruct (rne64_ssize n Hn) as [H0 H63].
  pose proof (pow2_lt 63 1024 ltac:(lia)). pose proof (pow2_pos 1024).
  rewrite double_Fin; [done|lra..].
Qed.

(** ** The validation size *)

Lemma val_size_pos (n : Z) (r : Q) : 1 ≤ MySet.val_size n r.
Proof. unfold MySet.val_size. lia. Qed.

Lemma val_sz_pos (n : Z) (x : float) (k : Z) : MySet.val_sz n x = Ok k → 1 ≤ k.
Proof.
  unfold MySet.val_sz. intros Hk.
  apply bind_Ok in Hk as (y & _ & Hk). apply bind_Ok in Hk as (r & _ & [= <-]).
  lia.
Qed.

Lemma val_sz_Err (n : Z) (x : float) (e : exn) :
  MySet.val_sz n x = Err e → e = ValueError ∨ e = OverflowError.
Proof.
  unfold MySet.val_sz, float_of_int.
  destruct (decide (Z.abs n < DBL_OVERFLOW)); cbn [mbind result_bind];
    [|intros [= <-]; by right].
  destruct (float_mul _ _); simpl; [done|intros [= <-]; by right|intros [= <-]; by left].
Qed.

(** Line 31 on a list length and a ratio of magnitude at most 1: nothing
    overflows and the size is [val_size]. *)
Lemma val_sz_finite (n : Z) (r : Q) :
  0 ≤ n ≤ PY_SSIZE_T_MAX → (- (1) <= r)%Q → (r <= 1)%Q →
  MySet.val_sz n (Fin r) = Ok (MySet.val_size n r).
Proof.
  intros Hn Hlo Hhi. unfold MySet.val_sz. rewrite (float_of_ssize n Hn).
  cbn [mbind result_bind].
  destruct (rne64_ssize n Hn) as [Hn0 Hn63].
  pose proof (rne64_monotone _ _ Hlo) as Hr0. rewrite rne64_minus_one in Hr0.
  pose proof (rne64_monotone _ _ Hhi) as Hr1. rewrite rne64_one in Hr1.
  pose proof (pow2_lt 63 1024 ltac:(lia)) as H63. pose proof (pow2_pos 63) as P63.
  pose proof (pow2_pos 1024) as P1024.
  rewrite (double_Fin r) by lra. cbn [float_mul].
  destruct (rne64_bounded (rne binary64 (inject_Z n) * rne binary64 r) 63)
    as [Hp0 Hp1]; [done|nra|nra|].
  rewrite double_Fin by lra. done.
Qed.

Lemma to_format_cases (fmt : format) (q : Q) :
  to_format fmt (Fin q) = Fin (rne fmt q) ∨ ∃ s, to_format fmt (Fin q) = Inf s.
Proof.
  unfold to_format. destruct (Qle_bool _ _); [right; by eexists|by left].
Qed.

(** Whenever line 31 yields a size for a float written [r], the size is
    [val_size n r]. *)
Lemma val_sz_Ok_val_size (n : Z) (r : Q) (k : Z) :
  MySet.val_sz n (Fin r) = Ok k → k = MySet.val_size n r.
Proof.
  unfold MySet.val_sz, float_of_int, double. intros Hk.
  destruct (decide (Z.abs n < DBL_OVERFLOW)); [|done].
  cbn [mbind result_bind] in Hk.
  destruct (to_format_cases binary64 (inject_Z n)) as [En|[s En]];
    destruct (to_format_cases binary64 r) as [Er|[s' Er]];
    rewrite En, Er in Hk; cbn [float_mul] in Hk.
  - unfold double in Hk.
    destruct (to_format_cases binary64
                (rne binary64 (inject_Z n) * rne binary64 r)) as [Ep|[s Ep]];
      rewrite Ep in Hk; [|done].
    by injection Hk as <-.
  - by destruct (Qeq_bool _ _).
  - by destruct (Qeq_bool _ _).
  - done.
Qed.


Lemma val_size_nonpositive_ratio (n : Z) (r : Q) :
  0 ≤ n → (r <= 0)%Q → MySet.val_size n r = 1.
Proof.
  intros Hn Hr. unfold MySet.val_size.
  assert (0 <= rne binary64 (inject_Z n))%Q as Hn0.
  { apply rne_nonneg. change 0%Q with (inject_Z 0). rewrite <- Zle_Qle. lia. }
  pose proof (rne_nonpos binary64 r Hr) as Hr0.
  set (p := (rne binary64 (inject_Z n) * rne binary64 r)%Q).
  assert (p <= 0)%Q as Hp by (unfold p; nra).
  pose proof (py_round_monotone _ _ (rne_nonpos binary64 p Hp)) as Hround.
  change 0%Q with (inject_Z 0) in Hround. rewrite py_round_Z in Hround. lia.
Qed.

(** The default ratio, written 0.2, never asks for more indices than there
    are lines, however long the list. *)
Lemma val_size_fifth (n : Z) : 1 ≤ n → MySet.val_size n (1 # 5) ≤ n.
Proof.
  intros Hn. unfold MySet.val_size.
  destruct (Z.log2_spec n ltac:(lia)) as [Hlo Hhi].
  pose proof (Z.log2_nonneg n) as Hk. set (k := Z.log2 n) in *.
  rewrite <- Z.add_1_r in Hhi.
  assert (0 <= rne binary64 (inject_Z n))%Q as Hn0.
  { apply rne_nonneg. change 0%Q with (inject_Z 0). rewrite <- Zle_Qle. lia. }
  assert (rne binary64 (inject_Z n) <= 2 ^ (k + 1))%Q as Hn1.
  { rewrite <- (rne_pow2 binary64 binary64_prec (k + 1)) by (simpl; lia).
    apply rne64_monotone. rewrite <- pow2_Z by lia. rewrite <- Zle_Qle. lia. }
  assert (0 <= rne binary64 (1 # 5))%Q as Hc0 by (by vm_compute).
  assert (rne binary64 (1 # 5) <= 1 # 4)%Q as Hc1 by (by vm_compute).
  set (p := (rne binary64 (inject_Z n) * rne binary64 (1 # 5))%Q).
  pose proof (pow2_plus (k - 1) 2) as Hsplit.
  replace (k - 1 + 2) with (k + 1) in Hsplit by lia.
  change (2 ^ 2)%Q with 4%Q in Hsplit. pose proof (pow2_pos (k - 1)) as Ppos.
  assert (p <= 2 ^ (k - 1))%Q as Hp by (unfold p; nra).
  pose proof (rne64_monotone _ _ Hp) as Hq.
  rewrite (rne_pow2 binary64 binary64_prec (k - 1)) in Hq by (simpl; lia).
  destruct (decide (k = 0)) as [Hk0|Hk0].
  - rewrite Hk0 in *. change (2 ^ (0 - 1))%Q with (1 # 2)%Q in Hq.
    pose proof (py_round_monotone _ _ Hq) as Hround.
    change (py_round (1 # 2)) with 0 in Hround. lia.
  - rewrite <- pow2_Z in Hq by lia.
    pose proof (py_round_monotone _ _ Hq) as Hround. rewrite py_round_Z in Hround.
    pose proof (Z.pow_le_mono_r 2 (k - 1) k ltac:(lia) ltac:(lia)). lia.
Qed.

(** Line 31 on an empty file: the size is 1, or the product is not a
    number. *)
Lemma val_sz_zero (x : float) :
  MySet.val_sz 0 x = Ok 1 ∨ MySet.val_sz 0 x = Err ValueError.
Proof.
  unfold MySet.val_sz. rewrite (float_of_ssize 0) by done.
  rewrite (rne_zero binary64 (inject_Z 0)) by done. cbn [mbind result_bind].
  destruct (double x) as [b|s|]; cbn [float_mul]; [|right; reflexivity..].
  left. by rewrite double_zero by ring.
Qed.

(** An infinite ratio over a file with lines makes the product infinite
    and [round] raise OverflowError; a ratio that is not a number makes it
    raise ValueError. *)
Lemma val_sz_Inf (n : Z) (s : bool) :
  1 ≤ n ≤ PY_SSIZE_T_MAX → MySet.val_sz n (Inf s) = Err OverflowError.
Proof.
  intros Hn. unfold MySet.val_sz. rewrite (float_of_ssize n) by lia.
  cbn [mbind result_bind double to_format float_mul].
  assert (1 <= rne binary64 (inject_Z n))%Q as Hpos.
  { rewrite <- rne64_one. apply rne64_monotone.
    change (inject_Z 1 <= inject_Z n)%Q. rewrite <- Zle_Qle. lia. }
  rewrite Qeq_bool_false; [done|]. lra.
Qed.

Lemma val_sz_NaN (n : Z) :
  0 ≤ n ≤ PY_SSIZE_T_MAX → MySet.val_sz n NaN = Err ValueError.
Proof.
  intros Hn. unfold MySet.val_sz. by rewrite (float_of_ssize n).
Qed.

(** ** A reference sampler

    Rotate the population by the seed and keep the first [k] items.  It
    meets the contract of [Sampler] and is used to run the model on concrete
    datasets. *)

Definition rotating_draw (seed : Z) (a : list Z) (k : nat) : list Z :=
  take k (rotate (Z.to_nat seed) a).

Lemma rotate_Permutation {A} (n : nat) (l : list A) : rotate n l ≡ₚ l.
Proof.
  unfold rotate. rewrite Permutation_app_comm. by rewrite take_drop.
Qed.

Lemma rotating_draw_length seed a k :
  (k ≤ length a)%nat → length (rotating_draw seed a k) = k.
Proof.
  intros Hk. unfold rotating_draw. rewrite length_take, length_rotate. lia.
Qed.

Lemma rotating_draw_submseteq seed a k :
  (k ≤ length a)%nat → rotating_draw seed a k ⊆+ a.
Proof.
  intros _. unfold rotating_draw.
  rewrite <- (rotate_Permutation (Z.to_nat seed) a) at 2.
  apply submseteq_take.
Qed.

Definition rotating_sampler : Sampler :=
  {| draw := rotating_draw;
     draw_length := rotating_draw_length;
     draw_submseteq := rotating_draw_submseteq;
     oversize := λ _, OverflowError |}.

(** ** The split *)

Lemma fs_lookup_within (fs : FileSystem) (path : string) (lines : list line) :
  fs !! path = Some lines → 0 ≤ Z.of_nat (length lines) ≤ PY_SSIZE_T_MAX.
Proof.
  intros Hfs. split; [lia|]. pose proof (fs_within fs) as Hw.
  unfold within_ssize in Hw. rewrite forallb_forall in Hw.
  apply Z.leb_le, (Hw (path, lines)), list_elem_of_In, elem_of_map_to_list.
  done.
Qed.

Section split.
Context `{Sampler}.

Lemma draw_NoDup seed a k : (k ≤ length a)%nat → NoDup a → NoDup (draw seed a k).
Proof.
  intros Hk Ha.
  destruct (submseteq_Permutation _ _ (draw_submseteq seed a k Hk)) as [rest Hp].
  rewrite Hp in Ha. by apply NoDup_app in Ha as (? & _ & _).
Qed.

Lemma elem_of_draw seed a k x : (k ≤ length a)%nat → x ∈ draw seed a k → x ∈ a.
Proof.
  intros Hk Hx. eapply elem_of_submseteq; [done|by apply draw_submseteq].
Qed.

Lemma length_arange n : 0 ≤ n → Z.of_nat (length (arange n)) = n.
Proof. intros Hn. unfold arange. rewrite length_seqZ. lia. Qed.

Lemma draw_all seed a : draw seed a (length a) ≡ₚ a.
Proof.
  apply submseteq_length_Permutation.
  - by apply draw_submseteq.
  - by rewrite draw_length.
Qed.

(** What construction does on an existing file of [n] lines. *)
Lemma init_unfold (fs : FileSystem) path lines val_ratio seed :
  fs !! path = Some lines →
  let n := Z.of_nat (length lines) in
  MySet.__init__ fs path val_ratio seed =
    if decide (seed < 0) then Err ValueError
    else match MySet.val_sz n val_ratio with
         | Err e => Err e
         | Ok k =>
             if decide (n < k) then
               if decide (n = 0 ∨ k ≤ PY_SSIZE_T_MAX) then Err ValueError
               else Err (oversize k)
             else Ok {| MySet.content := lines;
                        MySet.val_indices :=
                          list_to_set (draw seed (arange n) (Z.to_nat k)) |}
         end.
Proof.
  intros Hfs n. unfold MySet.__init__. rewrite Hfs. fold n.
  pose proof (fs_lookup_within _ _ _ Hfs) as Hn. fold n in Hn.
  unfold default_rng. destruct (decide (seed < 0)); [done|].
  cbn [mbind result_bind bit_seed].
  destruct (MySet.val_sz n val_ratio) as [k|e] eqn:Hk; [|done].
  apply val_sz_pos in Hk. cbn [mbind result_bind]. unfold choice.
  rewrite length_arange by lia.
  destruct (decide (n = 0 ∧ k ≠ 0)) as [[Hn0 _]|Hne].
  { destruct (decide (n < k)); [|lia]. by destruct (decide (n = 0 ∨ _)); [|tauto]. }
  destruct (decide (k < _ ∨ _ < k)) as [Hbig|Hfit].
  { destruct (decide (n < k)); [|lia]. destruct (decide (n = 0 ∨ _)); [lia|done]. }
  destruct (decide (n < k)).
  { destruct (decide (n = 0 ∨ _)); [done|lia]. }
  by destruct (decide (k < 0)); [lia|].
Qed.

Lemma init_Ok (fs : FileSystem) path lines val_ratio seed k :
  fs !! path = Some lines →
  let n := Z.of_nat (length lines) in
  0 ≤ seed → MySet.val_sz n val_ratio = Ok k → k ≤ n →
  ∃ self val,
    MySet.__init__ fs path val_ratio seed = Ok self
    ∧ MySet.content self = lines
    ∧ MySet.val_indices self = list_to_set val
    ∧ NoDup val
    ∧ Z.of_nat (length val) = k
    ∧ (∀ i, i ∈ val → 0 ≤ i < n).
Proof.
  intros Hfs n Hseed Hk Hsz. pose proof (val_sz_pos _ _ _ Hk) as Hpos.
  rewrite (init_unfold _ _ _ _ _ Hfs). fold n. rewrite Hk.
  destruct (decide (seed < 0)); [lia|].
  destruct (decide (n < k)); [lia|].
  assert (Z.to_nat k ≤ length (arange n))%nat as Hlen.
  { pose proof (length_arange n). lia. }
  eexists _, _. split_and!; [done..| | |].
  - apply draw_NoDup; [done|]. apply NoDup_seqZ.
  - rewrite draw_length by done. lia.
  - intros i Hi. apply elem_of_draw in Hi; [|done].
    unfold arange in Hi. apply elem_of_seqZ in Hi. lia.
Qed.

Lemma init_inv (fs : FileSystem) path val_ratio seed self :
  MySet.__init__ fs path val_ratio seed = Ok self →
  ∃ lines k,
    fs !! path = Some lines ∧ 0 ≤ seed
    ∧ MySet.val_sz (Z.of_nat (length lines)) val_ratio = Ok k
    ∧ 1 ≤ k ≤ Z.of_nat (length lines)
    ∧ self = {| MySet.content := lines;
                MySet.val_indices :=
                  list_to_set
                    (draw seed (arange (Z.of_nat (length lines))) (Z.to_nat k)) |}.
Proof.
  intros Hinit. destruct (fs !! path) as [lines|] eqn:Hfs.
  - rewrite (init_unfold _ _ _ val_ratio seed Hfs) in Hinit.
    destruct (decide (seed < 0)); [done|].
    destruct (MySet.val_sz _ val_ratio) as [k|e] eqn:Hk; [|done].
    pose proof (val_sz_pos _ _ _ Hk).
    destruct (decide (_ < k)); [by destruct (decide (_ ∨ _))|].
    injection Hinit as <-. exists lines, k. split_and!; [done|lia|done|lia|lia|done].
  - unfold MySet.__init__ in Hinit. by rewrite Hfs in Hinit.
Qed.

Lemma init_Ok_facts (fs : FileSystem) path val_ratio seed self :
  MySet.__init__ fs path val_ratio seed = Ok self →
  fs !! path = Some (MySet.content self)
  ∧ 0 ≤ seed
  ∧ MySet.val_sz (MySet.__len__ self) val_ratio
    = Ok (Z.of_nat (size (MySet.val_indices self)))
  ∧ 1 ≤ Z.of_nat (size (MySet.val_indices self)) ≤ MySet.__len__ self
  ∧ (∀ i, i ∈ MySet.val_indices self → 0 ≤ i < MySet.__len__ self).
Proof.
  intros Hinit.
  destruct (init_inv _ _ _ _ _ Hinit) as (lines & k & Hfs & Hseed & Hk & Hbound & ->).
  unfold MySet.__len__. cbn [MySet.content MySet.val_indices].
  assert (Z.to_nat k ≤ length (arange (Z.of_nat (length lines))))%nat as Hlen.
  { pose proof (length_arange (Z.of_nat (length lines))). lia. }
  rewrite size_list_to_set by (apply draw_NoDup; [done|apply NoDup_seqZ]).
  rewrite draw_length by done. rewrite Z2Nat.id by lia.
  split_and!; [done..|lia|lia|].
  intros i Hi. apply elem_of_list_to_set, elem_of_draw in Hi; [|done].
  unfold arange in Hi. apply elem_of_seqZ in Hi. lia.
Qed.

Lemma init_val_indices_range (fs : FileSystem) path val_ratio seed self :
  MySet.__init__ fs path val_ratio seed = Ok self →
  ∀ i, i ∈ MySet.val_indices self → 0 ≤ i < MySet.__len__ self.
Proof. intros Hinit. by apply init_Ok_facts in Hinit as (_ & _ & _ & _ & ?). Qed.

End split.

(** ** Claims about the split *)

Section split_claims.
Context `{Sampler}.


(** C2: two constructions over files with the same number of lines, with
    the same val_ratio and seed, compute the same validation set (and fail
    alike when they fail): the set depends on (N, val_ratio, seed) only. *)
Theorem split_deterministic fs1 fs2 path1 path2 lines1 lines2 val_ratio seed :
  fs1 !! path1 = Some lines1 →
  fs2 !! path2 = Some lines2 →
  length lines1 = length lines2 →
  MySet.val_indices <$> MySet.__init__ fs1 path1 val_ratio seed =
  MySet.val_indices <$> MySet.__init__ fs2 path2 val_ratio seed.
Proof.
  intros Hfs1 Hfs2 Hlen.
  rewrite (init_unfold _ _ _ _ _ Hfs1), (init_unfold _ _ _ _ _ Hfs2).
  simpl. rewrite Hlen.
  destruct (decide (seed < 0)); [done|].
  destruct (MySet.val_sz _ val_ratio); [|done].
  destruct (decide (_ < _)); [|done].
  by destruct (decide (_ ∨ _)).
Qed.

(** C7, as amended: construction validates neither val_ratio nor N and
    raises no configuration error of its own.  On an existing file of N
    lines it fails when the seed is negative (the generator's ValueError,
    raised before line 31 is reached); when round fails on the float product
    N * val_ratio, with ValueError where the product is not a number (as for
    a val_ratio that is not a number) and with OverflowError where it is
    infinite (as for an infinite val_ratio with N >= 1); and when
    max(1, round(N * val_ratio)) exceeds N (the generator's ValueError for a
    size that fits a machine integer), which is always the case for N = 0.
    It succeeds exactly when the seed is not negative and line 31 yields a
    size of at most N, with that many validation indices; for a finite
    val_ratio that size is max(1, round(N * val_ratio)) on the float product,
    also outside (0, 1): every val_ratio from -1 to 0 yields one validation
    index. *)
Theorem init_failure_cases (fs : FileSystem) path lines val_ratio seed :
  fs !! path = Some lines →
  (seed < 0 → MySet.__init__ fs path val_ratio seed = Err ValueError)
  ∧ (0 ≤ seed → val_ratio = NaN →
     MySet.__init__ fs path val_ratio seed = Err ValueError)
  ∧ (0 ≤ seed → lines ≠ [] → (∃ s, val_ratio = Inf s) →
     MySet.__init__ fs path val_ratio seed = Err OverflowError)
  ∧ (0 ≤ seed →
     ∃ x, float_of_int (Z.of_nat (length lines)) = Ok x
       ∧ (float_mul x (double val_ratio) = NaN →
          MySet.__init__ fs path val_ratio seed = Err ValueError)
       ∧ ((∃ s, float_mul x (double val_ratio) = Inf s) →
          MySet.__init__ fs path val_ratio seed = Err OverflowError))
  ∧ (0 ≤ seed →
     ∀ e, MySet.val_sz (Z.of_nat (length lines)) val_ratio = Err e →
          MySet.__init__ fs path val_ratio seed = Err e
          ∧ (e = ValueError ∨ e = OverflowError))
  ∧ (0 ≤ seed →
     ∀ k, MySet.val_sz (Z.of_nat (length lines)) val_ratio = Ok k →
          Z.of_nat (length lines) < k →
          is_Err (MySet.__init__ fs path val_ratio seed)
          ∧ (k ≤ PY_SSIZE_T_MAX →
             MySet.__init__ fs path val_ratio seed = Err ValueError))
  ∧ (0 ≤ seed →
     ∀ k, MySet.val_sz (Z.of_nat (length lines)) val_ratio = Ok k →
          k ≤ Z.of_nat (length lines) →
          ∃ self, MySet.__init__ fs path val_ratio seed = Ok self
            ∧ Z.of_nat (size (MySet.val_indices self)) = k)
  ∧ (is_Ok (MySet.__init__ fs path val_ratio seed)
     ↔ 0 ≤ seed
       ∧ ∃ k, MySet.val_sz (Z.of_nat (length lines)) val_ratio = Ok k
              ∧ k ≤ Z.of_nat (length lines))
  ∧ (∀ (q : Q) k,
       val_ratio = Fin q →
       MySet.val_sz (Z.of_nat (length lines)) val_ratio = Ok k →
       k = MySet.val_size (Z.of_nat (length lines)) q)
  ∧ (lines = [] → MySet.__init__ fs path val_ratio seed = Err ValueError)
  ∧ (lines ≠ [] → 0 ≤ seed →
     ∀ q : Q, val_ratio = Fin q → (- (1) <= q)%Q → (q <= 0)%Q →
       ∃ self, MySet.__init__ fs path val_ratio seed = Ok self
         ∧ size (MySet.val_indices self) = 1%nat).
Proof.
  intros Hfs. pose proof (init_unfold _ _ _ val_ratio seed Hfs) as Hu.
  cbv zeta in Hu. pose proof (fs_lookup_within _ _ _ Hfs) as Hwithin.
  assert (lines ≠ [] → 1 ≤ Z.of_nat (length lines)) as Hlines.
  { destruct lines; [done|]. simpl. lia. }
  assert (0 ≤ seed →
     ∀ k, MySet.val_sz (Z.of_nat (length lines)) val_ratio = Ok k →
          k ≤ Z.of_nat (length lines) →
          ∃ self, MySet.__init__ fs path val_ratio seed = Ok self
            ∧ Z.of_nat (size (MySet.val_indices self)) = k) as Hok.
  { intros Hseed k Hk Hsz.
    destruct (init_Ok fs path lines val_ratio seed k Hfs Hseed Hk Hsz)
      as (self & val & Hinit & _ & Hval & Hnd & Hlen & _).
    exists self. split; [done|]. by rewrite Hval, size_list_to_set. }
  split_and!.
  - intros Hseed. rewrite Hu. by destruct (decide (seed < 0)); [|lia].
  - intros Hseed ->. rewrite Hu. destruct (decide (seed < 0)); [lia|].
    by rewrite val_sz_NaN.
  - intros Hseed Hne [s ->]. rewrite Hu. destruct (decide (seed < 0)); [lia|].
    rewrite val_sz_Inf; [done|]. specialize (Hlines Hne). lia.
  - intros Hseed. eexists. split; [by apply float_of_ssize|].
    rewrite Hu. unfold MySet.val_sz. rewrite (float_of_ssize _ Hwithin).
    cbn [mbind result_bind]. destruct (decide (seed < 0)); [lia|].
    split; [by intros ->|by intros [s ->]].
  - intros Hseed e He. split; [|by eapply val_sz_Err].
    rewrite Hu, He. by destruct (decide (seed < 0)); [lia|].
  - intros Hseed k Hk Hsz. rewrite Hu, Hk.
    destruct (decide (seed < 0)); [lia|]. destruct (decide (_ < k)); [|lia].
    destruct (decide (_ ∨ _)) as [|Hbig].
    + split; [by eexists|done].
    + split; [by eexists|]. intros Hfit. destruct Hbig. by right.
  - done.
  - split.
    + intros [self Hinit].
      destruct (init_inv _ _ _ _ _ Hinit) as (lines' & k & Hfs' & Hseed & Hk & Hbound & _).
      rewrite Hfs in Hfs'. injection Hfs' as <-.
      split; [done|]. exists k. split; [done|lia].
    + intros (Hseed & k & Hk & Hsz).
      destruct (Hok Hseed k Hk Hsz) as (self & Hinit & _). by exists self.
  - intros q k -> Hk. by apply val_sz_Ok_val_size.
  - intros ->. rewrite Hu. destruct (decide (seed < 0)); [done|].
    cbn [length]. change (Z.of_nat 0) with 0.
    destruct (val_sz_zero val_ratio) as [-> | ->]; [|done].
    destruct (decide (0 < 1)); [|lia]. by destruct (decide (_ ∨ _)); [|lia].
  - intros Hne Hseed q -> Hlo Hhi. specialize (Hlines Hne).
    pose proof (val_sz_finite _ q Hwithin Hlo ltac:(lra)) as Hk.
    rewrite val_size_nonpositive_ratio in Hk by (done || lia).
    destruct (Hok Hseed 1 Hk ltac:(lia)) as (self & Hinit & Hsize).
    exists self. split; [done|]. lia.
Qed.

(** C9: after construction over N lines, the lookup of a negative index -k
    with 1 <= k <= N indexes line N - k without an IndexError and tags what
    that line decodes to with is_train = 1, whether or not N - k is a
    validation index: the membership test is made on -k itself. *)
Theorem getitem_negative_index fs path val_ratio seed self k :
  MySet.__init__ fs path val_ratio seed = Ok self →
  1 ≤ k ≤ MySet.__len__ self →
  ∃ l,
    MySet.content self !! Z.to_nat (MySet.__len__ self - k) = Some l
    ∧ MySet.__getitem__ self (- k) =
        (rec ← json_loads l; store_subscript rec "is_train" (PInt 1))
    ∧ ∀ kvs, l = Decodes (PDict kvs) →
        ∃ rec, MySet.__getitem__ self (- k) = Ok rec
          ∧ rec = PDict (dict_set kvs "is_train" (PInt 1))
          ∧ subscript rec "is_train" = Ok (PInt 1).
Proof.
  intros Hinit Hk.
  assert (- k ∉ MySet.val_indices self) as Hnot.
  { intros Hin. apply (init_val_indices_range _ _ _ _ _ Hinit) in Hin. lia. }
  unfold MySet.__len__ in *.
  destruct (lookup_lt_is_Some_2 (MySet.content self)
              (Z.to_nat (Z.of_nat (length (MySet.content self)) - k)))
    as [l Hl]; [lia|].
  assert (MySet.__getitem__ self (- k) =
            (rec ← json_loads l; store_subscript rec "is_train" (PInt 1))) as Hget.
  { unfold MySet.__getitem__, list_index.
    destruct (decide (- k < 0)); [|lia].
    destruct (decide (0 ≤ _ < _)); [|lia].
    replace (- k + Z.of_nat (length (MySet.content self)))
      with (Z.of_nat (length (MySet.content self)) - k) by lia.
    rewrite Hl. simpl. by destruct (decide (- k ∈ MySet.val_indices self)). }
  exists l. split_and!; [done..|].
  intros kvs ->. eexists. split_and!; [by rewrite Hget|done|].
  simpl. by rewrite dict_get_set_eq.
Qed.

End split_claims.

(** C3: for an index i of [0, N), whatever get(i) returns carries
    is_train = 0 exactly when i is a validation index and is_train = 1
    exactly when it is not; and get(i) does return whenever line i decodes
    to an object. *)
Theorem getitem_tag (self : MySet.t) (i : Z) :
  0 ≤ i < MySet.__len__ self →
  (∀ rec, MySet.__getitem__ self i = Ok rec →
     (subscript rec "is_train" = Ok (PInt 0) ↔ i ∈ MySet.val_indices self)
     ∧ (subscript rec "is_train" = Ok (PInt 1) ↔ i ∉ MySet.val_indices self))
  ∧ (∀ kvs, MySet.content self !! Z.to_nat i = Some (Decodes (PDict kvs)) →
     is_Ok (MySet.__getitem__ self i)).
Proof.
  intros Hi. unfold MySet.__len__ in Hi. unfold MySet.__getitem__, list_index.
  destruct (decide (i < 0)); [lia|].
  destruct (decide (0 ≤ i < _)); [|lia].
  split.
  - intros rec.
    destruct (MySet.content self !! Z.to_nat i) as [[|v]|]; simpl; [done| |done].
    destruct v; simpl; try done. intros [= <-]. simpl.
    rewrite dict_get_set_eq.
    destruct (decide (i ∈ MySet.val_indices self)); split; split; try done;
      intros [=].
  - intros kvs ->. simpl. by eexists.
Qed.

(** ** The claims about the split, run on the sample dataset *)



Example val_size_5_lines : MySet.val_size 5 (1 # 5) = 1.
Proof. vm_compute. reflexivity. Qed.

Example val_size_3_lines : MySet.val_size 3 (1 # 2) = 2.
Proof. vm_compute. reflexivity. Qed.

Example val_size_10_lines : MySet.val_size 10 (1 # 5) = 2.
Proof. vm_compute. reflexivity. Qed.

(** The product is rounded to a float before [round] sees it: 25 * 0.1 is
    the float 2.5, 5 * 0.7 and 5 * 0.9 are 3.5 and 4.5, 10 * 1.05 is 10.5,
    and halves go to the even integer. *)
Example val_sz_halves :
  MySet.val_sz 25 (1 # 10) = Ok 2 ∧ MySet.val_sz 5 (7 # 10) = Ok 4
  ∧ MySet.val_sz 5 (9 # 10) = Ok 4 ∧ MySet.val_sz 10 (105 # 100) = Ok 10.
Proof. split_and!; vm_compute; reflexivity. Qed.

(** From 2^53 on not every line count is a float: 2^53 + 3 lines are
    counted as 2^53 + 4, and a val_ratio written just below 1, which is read
    as 1.0, then asks for more indices than there are lines. *)
Example val_sz_beyond_exact :
  MySet.val_sz (2 ^ 53 + 3) (Fin (1 - (1 # 2 ^ 60))) = Ok (2 ^ 53 + 4).
Proof. vm_compute. reflexivity. Qed.

Lemma split_deterministic_witness :
  MySet.val_indices <$>
    MySet.__init__ (H:=rotating_sampler) sample_fs sample_path (1 # 2) 42 =
  MySet.val_indices <$>
    MySet.__init__ (H:=rotating_sampler) junk_fs "junk.jsonl" (1 # 2) 42.
Proof.
  apply (split_deterministic (H:=rotating_sampler) sample_fs junk_fs
           sample_path "junk.jsonl" sample_lines (replicate 5 Undecodable));
    reflexivity.
Defined.

Lemma sample_set_init :
  MySet.__init__ (H:=rotating_sampler) sample_fs sample_path (1 # 2) 42
  = Ok sample_set.
Proof. vm_compute. reflexivity. Qed.

(** C7 as stated fails: [val_ratio = 0] is outside (0, 1), yet construction
    over the five sample lines succeeds. *)
Lemma init_accepts_zero_ratio :
  ¬ (¬ ((0 < 0)%Q ∧ (0 < 1)%Q ∧ 1 ≤ Z.of_nat (length sample_lines)) →
     is_Err (MySet.__init__ (H:=rotating_sampler) sample_fs sample_path 0 42)).
Proof.
  intros Hclaim. destruct Hclaim as [e He].
  - intros (Hlt & _). discriminate Hlt.
  - vm_compute in He. discriminate He.
Qed.

Lemma init_failure_cases_witness :
  is_Ok (MySet.__init__ (H:=rotating_sampler) sample_fs sample_path 0 42)
  ∧ (∃ self,
       MySet.__init__ (H:=rotating_sampler) sample_fs sample_path 0 42 = Ok self
       ∧ Z.of_nat (size (MySet.val_indices self)) = 1)
  ∧ 1 = MySet.val_size 5 0.
Proof.
  destruct (init_failure_cases (H:=rotating_sampler)
              sample_fs sample_path sample_lines 0 42)
    as (_ & _ & _ & _ & _ & _ & Hok & Hiff & Hsize & _); [reflexivity|].
  split_and!.
  - apply Hiff. split; [lia|]. exists 1. split; [vm_compute; reflexivity|simpl; lia].
  - apply Hok; [lia|vm_compute; reflexivity|simpl; lia].
  - apply (Hsize 0%Q 1); [reflexivity|vm_compute; reflexivity].
Defined.

Example init_rejects_empty_file :
  MySet.__init__ (H:=rotating_sampler) empty_fs sample_path (1 # 5) 42
  = Err ValueError.
Proof. vm_compute. reflexivity. Qed.

Example init_accepts_ratio_one :
  MySet.val_indices <$>
    MySet.__init__ (H:=rotating_sampler) sample_fs sample_path 1 42
  = Ok (list_to_set [0; 1; 2; 3; 4]).
Proof. vm_compute. reflexivity. Qed.

(** Ten lines at val_ratio = 1.05: the product is the float 10.5, rounded
    to 10, and all ten lines become validation lines. *)
Example init_accepts_ratio_above_one :
  (λ self, size (MySet.val_indices self)) <$>
    MySet.__init__ (H:=rotating_sampler)
      {| fs_files := {[ sample_path := replicate 10 Undecodable ]};
         fs_within := eq_refl |} sample_path (105 # 100) 42
  = Ok 10%nat.
Proof. vm_compute. reflexivity. Qed.

(** An infinite val_ratio, one that is not a number, and one whose product
    with N is beyond the largest float. *)
Example init_rejects_special_ratios :
  MySet.__init__ (H:=rotating_sampler) sample_fs sample_path (Inf false) 42
  = Err OverflowError
  ∧ MySet.__init__ (H:=rotating_sampler) sample_fs sample_path NaN 42
    = Err ValueError
  ∧ MySet.__init__ (H:=rotating_sampler) sample_fs sample_path
      (inject_Z (10 ^ 308)) 42 = Err OverflowError
  ∧ MySet.__init__ (H:=rotating_sampler) empty_fs sample_path (Inf false) 42
    = Err ValueError.
Proof. split_and!; vm_compute; reflexivity. Qed.

Lemma getitem_negative_index_witness :
  ∃ l,
    MySet.content sample_set !! Z.to_nat (MySet.__len__ sample_set - 2) = Some l
    ∧ MySet.__getitem__ sample_set (- 2) =
        (rec ← json_loads l; store_subscript rec "is_train" (PInt 1))
    ∧ ∀ kvs, l = Decodes (PDict kvs) →
        ∃ rec, MySet.__getitem__ sample_set (- 2) = Ok rec
          ∧ rec = PDict (dict_set kvs "is_train" (PInt 1))
          ∧ subscript rec "is_train" = Ok (PInt 1).
Proof.
  apply (getitem_negative_index (H:=rotating_sampler)
           sample_fs sample_path (1 # 2) 42 sample_set 2).
  - vm_compute. reflexivity.
  - unfold MySet.__len__. simpl. lia.
Defined.

(** Line 3 is a validation line: reached as 3 it is tagged 0, reached as -2
    it is tagged 1. *)
Example negative_index_mistags :
  3 ∈ MySet.val_indices sample_set
  ∧ (MySet.__getitem__ sample_set 3 ≫= λ rec, subscript rec "is_train") = Ok (PInt 0)
  ∧ (MySet.__getitem__ sample_set (- 2) ≫= λ rec, subscript rec "is_train") = Ok (PInt 1).
Proof.
  split_and!; [|vm_compute; reflexivity..].
  change (3 ∈ list_to_set (C:=gset Z) [2; 3]). set_solver.
Qed.

Lemma getitem_tag_witness :
  (∀ rec, MySet.__getitem__ sample_set 3 = Ok rec →
     (subscript rec "is_train" = Ok (PInt 0) ↔ 3 ∈ MySet.val_indices sample_set)
     ∧ (subscript rec "is_train" = Ok (PInt 1) ↔ 3 ∉ MySet.val_indices sample_set))
  ∧ (∀ kvs, MySet.content sample_set !! Z.to_nat 3 = Some (Decodes (PDict kvs)) →
     is_Ok (MySet.__getitem__ sample_set 3)).
Proof.
  apply (getitem_tag sample_set 3). unfold MySet.__len__. simpl. lia.
Defined.

(** ** Storing nests of numbers *)

Lemma mapM_length {A B} (f : A → result B) (l : list A) (k : list B) :
  mapM f l = Ok k → length k = length l.
Proof. intros Hk. apply mapM_Ok in Hk. symmetry. by eapply Forall2_length. Qed.

Lemma mapM_Ok_exists {A B} (f : A → result B) (P : B → Prop) (l : list A) :
  Forall (λ x, ∃ y, f x = Ok y ∧ P y) l →
  ∃ k, mapM f l = Ok k ∧ Forall P k ∧ length k = length l.
Proof.
  induction 1 as [|x l (y & Hy & HP) _ (k & Hk & HPk & Hlen)]; simpl.
  - by exists [].
  - exists (y :: k). rewrite Hy, Hk. simpl.
    split_and!; [done|by constructor|by rewrite Hlen].
Qed.

Lemma mapM_lookup {A B} (f : A → result B) (l : list A) (k : list B) i x :
  mapM f l = Ok k → l !! i = Some x → ∃ y, k !! i = Some y ∧ f x = Ok y.
Proof.
  intros Hk Hx. apply mapM_Ok in Hk.
  destruct (Forall2_lookup_l _ _ _ _ _ Hk Hx) as (y & Hy & Hf). by exists y.
Qed.

Lemma is_number_unpack v : is_number v = true → ∃ x, unpack_double v = Ok x.
Proof.
  destruct v; cbn [is_number unpack_double]; try done.
  - intros Hz. apply bool_decide_eq_true in Hz. unfold float_of_int.
    destruct (decide (_ < _)); [by eexists|done].
  - by eexists.
Qed.

Lemma is_number_store dt v : is_number v = true → ∃ x, store_scalar dt v = Ok x.
Proof.
  intros Hv. destruct (is_number_unpack v Hv) as [x Hx].
  unfold store_scalar. rewrite Hx. by eexists.
Qed.

Lemma store_scalar_Ok dt v y :
  store_scalar dt v = Ok y → ∃ x, unpack_double v = Ok x ∧ y = cast dt x.
Proof.
  unfold store_scalar. intros Hy. apply bind_Ok in Hy as (x & Hx & [= <-]).
  by exists x.
Qed.

Lemma store_regular dt sizes v :
  regular sizes v → recursive_store dt sizes v = Ok (flatten dt (length sizes) v).
Proof.
  revert v. induction sizes as [|n sizes IH]; intros v; cbn [regular].
  - intros Hv. cbn [recursive_store flatten length].
    by destruct (is_number_store dt v Hv) as [x ->].
  - intros (l & -> & Hlen & Hl). cbn [recursive_store flatten length iterate].
    cbn [mbind result_bind].
    destruct (decide (length l = n)); [|done].
    rewrite (mapM_Ok_fmap _ (flatten dt (length sizes)) l); [done|].
    eapply Forall_impl; [done|]. apply IH.
Qed.

Lemma sizes_regular sizes v :
  regular sizes v → inner_nonzero sizes → compute_sizes v = Ok sizes.
Proof.
  revert v. induction sizes as [|n sizes IH]; intros v; simpl.
  - by destruct v.
  - intros (l & -> & Hlen & Hl) Hnz. destruct l as [|x l]; simpl in *.
    + subst n. destruct sizes; [done|]. by destruct Hnz.
    + apply Forall_cons in Hl as [Hx _]. rewrite (IH x Hx).
      * simpl. by rewrite <- Hlen.
      * destruct sizes; [done|]. by destruct Hnz.
Qed.

Lemma torch_tensor_regular vals dt sizes :
  regular sizes (PList vals) → inner_nonzero sizes →
  (length sizes ≤ MAX_DIMS)%nat →
  torch_tensor vals dt =
    Ok {| t_dtype := dt; shape := sizes;
          data := if decide (numel sizes = 0%nat) then []
                  else flatten dt (length sizes) (PList vals) |}.
Proof.
  intros Hreg Hnz Hdims. unfold torch_tensor.
  rewrite (sizes_regular _ _ Hreg Hnz). simpl.
  destruct (decide (MAX_DIMS < length sizes)%nat); [lia|].
  destruct (decide (numel sizes = 0%nat)); [done|].
  by rewrite (store_regular _ _ _ Hreg).
Qed.

(** ** Well-formed records *)

#[local] Arguments torch_tensor : simpl never.
#[local] Arguments nested_field : simpl never.
#[local] Arguments _pack_time_series : simpl never.
#[local] Arguments tensors : simpl never.

Ltac in_fields := apply list_elem_of_In; simpl; tauto.

(** Run the binds whose left operand is already a value. *)
Ltac run := cbn [mbind result_bind mret result_ret fmap result_fmap].

Lemma is_vector_regular F v : is_vector F v = true → regular [F] v.
Proof.
  destruct v; simpl; try done. intros Hv.
  apply andb_prop in Hv as [Hlen Hnum].
  apply bool_decide_eq_true in Hlen. exists l. split_and!; [done..|].
  apply Forall_forall. intros x Hx.
  rewrite forallb_forall in Hnum. apply Hnum. by apply list_elem_of_In.
Qed.

Lemma has_field_subscript P kvs k :
  has_field P kvs k = true → ∃ v, subscript (PDict kvs) k = Ok v ∧ P v = true.
Proof.
  unfold has_field. simpl. destruct (dict_get kvs k) as [v|]; [|done].
  intros HP. by exists v.
Qed.

Lemma is_timestep_field F x k :
  is_timestep F x = true → k ∈ field_names →
  ∃ v, subscript x k = Ok v ∧ is_vector F v = true.
Proof.
  destruct x; try done. unfold is_timestep. intros Hx Hk.
  rewrite forallb_forall in Hx. apply has_field_subscript, Hx.
  by apply list_elem_of_In.
Qed.

Lemma inner_field_steps (P : value → Prop) l k :
  Forall (λ x, ∃ v, subscript x k = Ok v ∧ P v) l →
  ∃ row, inner_field (PList l) k = Ok (PList row)
         ∧ Forall P row ∧ length row = length l.
Proof.
  intros Hl. unfold inner_field. simpl.
  destruct (mapM_Ok_exists _ _ _ Hl) as (row & -> & Hrow & Hlen).
  by exists row.
Qed.

Lemma inner_field_sequence T F r k :
  is_sequence T F r = true → k ∈ field_names →
  ∃ row, inner_field r k = Ok row ∧ regular [T; F] row.
Proof.
  destruct r; try done. simpl. intros Hr Hk.
  apply andb_prop in Hr as [Hlen Hsteps]. apply bool_decide_eq_true in Hlen.
  destruct (inner_field_steps (regular [F]) l k)
    as (row & Hrow & Hreg & Hrlen).
  - apply Forall_forall. intros x Hx. rewrite forallb_forall in Hsteps.
    destruct (is_timestep_field F x k) as (v & Hv & Hvec); [|done|].
    + apply Hsteps. by apply list_elem_of_In.
    + exists v. split; [done|]. by apply is_vector_regular.
  - exists (PList row). split; [done|]. exists row. split_and!; [done|lia|done].
Qed.

Lemma regular_no_steps B s v : regular [B; 0%nat; s] v → regular [B; 0%nat] v.
Proof.
  simpl. intros (l & -> & Hlen & Hl). exists l. split_and!; [done..|].
  eapply Forall_impl; [done|]. simpl. intros r (l' & -> & Hlen' & _).
  destruct l'; [|done]. by exists [].
Qed.

Lemma nested_field_sequences T F recs k :
  Forall (λ r, is_sequence T F r = true) recs → k ∈ field_names →
  ∃ vals, nested_field recs k = Ok vals
          ∧ regular (field_shape (length recs) T F) (PList vals).
Proof.
  intros Hrecs Hk. unfold nested_field.
  destruct (mapM_Ok_exists (λ r, inner_field r k) (regular [T; F]) recs)
    as (vals & Hvals & Hreg & Hlen).
  - eapply Forall_impl; [done|]. intros r Hr. by apply inner_field_sequence.
  - exists vals. split; [done|].
    assert (regular [length recs; T; F] (PList vals)) as H3 by (by exists vals).
    unfold field_shape. destruct (decide (T = 0%nat)) as [->|]; [|done].
    by eapply regular_no_steps.
Qed.

Lemma field_shape_inner_nonzero B T F : B ≠ 0%nat → inner_nonzero (field_shape B T F).
Proof. intros HB. unfold field_shape. destruct (decide (T = 0%nat)); simpl; auto. Qed.

Lemma torch_tensor_field vals B T F :
  B ≠ 0%nat → regular (field_shape B T F) (PList vals) →
  ∃ t, torch_tensor vals Float32 = Ok t
       ∧ shape t = field_shape B T F ∧ t_dtype t = Float32.
Proof.
  intros HB Hreg. eexists. split.
  - apply torch_tensor_regular; [done|by apply field_shape_inner_nonzero|].
    unfold field_shape, MAX_DIMS. destruct (decide (T = 0%nat)); simpl; lia.
  - done.
Qed.

Lemma pack_sequences T F recs :
  recs ≠ [] → Forall (λ r, is_sequence T F r = true) recs →
  ∃ p, _pack_time_series recs = Ok p
       ∧ Forall (λ t, shape t = field_shape (length recs) T F
                      ∧ t_dtype t = Float32) (tensors p).
Proof.
  intros Hne Hrecs.
  assert (length recs ≠ 0%nat) as HB by (by destruct recs).
  unfold _pack_time_series.
  destruct (nested_field_sequences T F recs "values" Hrecs) as (v1 & -> & R1);
    [in_fields|].
  destruct (nested_field_sequences T F recs "masks" Hrecs) as (v2 & -> & R2);
    [in_fields|].
  destruct (nested_field_sequences T F recs "deltas" Hrecs) as (v3 & -> & R3);
    [in_fields|].
  destruct (nested_field_sequences T F recs "forwards" Hrecs) as (v4 & -> & R4);
    [in_fields|].
  destruct (nested_field_sequences T F recs "evals" Hrecs) as (v5 & -> & R5);
    [in_fields|].
  destruct (nested_field_sequences T F recs "eval_masks" Hrecs) as (v6 & -> & R6);
    [in_fields|].
  simpl.
  destruct (torch_tensor_field v1 _ T F HB R1) as (t1 & -> & S1).
  destruct (torch_tensor_field v2 _ T F HB R2) as (t2 & -> & S2).
  destruct (torch_tensor_field v3 _ T F HB R3) as (t3 & -> & S3).
  destruct (torch_tensor_field v4 _ T F HB R4) as (t4 & -> & S4).
  destruct (torch_tensor_field v5 _ T F HB R5) as (t5 & -> & S5).
  destruct (torch_tensor_field v6 _ T F HB R6) as (t6 & -> & S6).
  simpl. eexists. split; [done|]. unfold tensors, packed_fields.
  cbn [fmap list_fmap snd]. repeat constructor; tauto.
Qed.

Lemma is_flag_number v : is_flag v = true → is_number v = true.
Proof. destruct v as [| |z| | | |]; try done. by destruct z as [|[]|]. Qed.

Lemma is_example_fields T F x :
  is_example T F x = true →
  (∃ v, subscript x "forward" = Ok v ∧ is_sequence T F v = true)
  ∧ (∃ v, subscript x "backward" = Ok v ∧ is_sequence T F v = true)
  ∧ (∃ v, subscript x "label" = Ok v ∧ is_number v = true)
  ∧ (∃ v, subscript x "is_train" = Ok v ∧ is_number v = true).
Proof.
  destruct x; try done. unfold is_example. intros Hx.
  apply andb_prop in Hx as [Hx Hflag]. apply andb_prop in Hx as [Hx Hlabel].
  apply andb_prop in Hx as [Hfw Hbw].
  split_and!; try by apply has_field_subscript.
  destruct (has_field_subscript _ _ _ Hflag) as (v & Hv & Hf).
  exists v. split; [done|]. by apply is_flag_number.
Qed.

Lemma torch_tensor_numbers vals :
  Forall (λ v, is_number v = true) vals →
  ∃ t, torch_tensor vals Float32 = Ok t
       ∧ shape t = [length vals] ∧ t_dtype t = Float32.
Proof.
  intros Hvals. eexists. split.
  - apply (torch_tensor_regular vals Float32 [length vals]).
    + by exists vals.
    + done.
    + unfold MAX_DIMS. simpl. lia.
  - done.
Qed.

(** What collate returns on well-formed examples. *)
Lemma collate_examples T F recs :
  recs ≠ [] → Forall (λ x, is_example T F x = true) recs →
  ∃ batch, collate_fn recs = Ok batch
    ∧ Forall (λ t, shape t = field_shape (length recs) T F
                   ∧ t_dtype t = Float32)
        (tensors (forward batch) ++ tensors (backward batch))
    ∧ (shape (labels batch) = [length recs] ∧ t_dtype (labels batch) = Float32)
    ∧ (shape (is_train batch) = [length recs]
       ∧ t_dtype (is_train batch) = Float32).
Proof.
  intros Hne Hrecs. unfold collate_fn.
  destruct (mapM_Ok_exists (λ x, subscript x "forward")
              (λ v, is_sequence T F v = true) recs) as (fws & -> & Hfws & Lfw).
  { eapply Forall_impl; [done|]. intros x Hx. by apply is_example_fields in Hx as (? & _). }
  destruct (mapM_Ok_exists (λ x, subscript x "backward")
              (λ v, is_sequence T F v = true) recs) as (bws & -> & Hbws & Lbw).
  { eapply Forall_impl; [done|]. intros x Hx. by apply is_example_fields in Hx as (_ & ? & _). }
  destruct (mapM_Ok_exists (λ x, subscript x "label")
              (λ v, is_number v = true) recs) as (lbls & Hlbls & Hnum & Llb).
  { eapply Forall_impl; [done|]. intros x Hx. by apply is_example_fields in Hx as (_ & _ & ? & _). }
  destruct (mapM_Ok_exists (λ x, subscript x "is_train")
              (λ v, is_number v = true) recs) as (flags & Hflags & Hfl & Lfl).
  { eapply Forall_impl; [done|]. intros x Hx. by apply is_example_fields in Hx as (_ & _ & _ & ?). }
  run.
  destruct (pack_sequences T F fws) as (pf & -> & Hpf); [by destruct recs, fws|done|].
  destruct (pack_sequences T F bws) as (pb & -> & Hpb); [by destruct recs, bws|done|].
  run. rewrite Hlbls. run.
  destruct (torch_tensor_numbers lbls Hnum) as (tl & -> & Htl).
  run. rewrite Hflags. run.
  destruct (torch_tensor_numbers flags Hfl) as (tf & -> & Htf).
  run. eexists. split; [done|]. cbn [forward backward labels is_train].
  rewrite Lfw in Hpf. rewrite Lbw in Hpb. rewrite Llb in Htl. rewrite Lfl in Htf.
  split_and!; try tauto. by apply Forall_app_2.
Qed.

(** C4, as amended: for a non-empty list of B well-formed examples sharing
    T >= 1 time steps and F features, collate returns, in each direction, six
    tensors of shape [B, T, F], and labels and is_train of shape [B], all of
    element type float32 whether the numbers were integers or floats.  With
    T = 0 there is no step to read F from and the twelve field tensors have
    shape [B, 0]. *)
Theorem collate_shapes T F recs :
  recs ≠ [] → Forall (λ x, is_example T F x = true) recs →
  ∃ batch, collate_fn recs = Ok batch
    ∧ Forall (λ t, shape t = field_shape (length recs) T F
                   ∧ t_dtype t = Float32)
        (tensors (forward batch) ++ tensors (backward batch))
    ∧ (shape (labels batch) = [length recs] ∧ t_dtype (labels batch) = Float32)
    ∧ (shape (is_train batch) = [length recs]
       ∧ t_dtype (is_train batch) = Float32).
Proof. apply collate_examples. Qed.

(** ** Ragged nests *)

Lemma Forall_or_first {A} (P Q : A → Prop) (l : list A) :
  Forall (λ x, P x ∨ Q x) l →
  Forall P l ∨ ∃ l1 x l2, l = l1 ++ x :: l2 ∧ Forall P l1 ∧ Q x.
Proof.
  induction 1 as [|x l [HP|HQ] _ [IH|(l1 & y & l2 & -> & Hl1 & Hy)]].
  - by left.
  - left. by constructor.
  - right. exists (x :: l1), y, l2. split_and!; [done|by constructor|done].
  - right. by exists [], x, l.
  - right. by exists [], x, (l1 ++ y :: l2).
Qed.

Lemma regular_typed sizes v : regular sizes v → typed (length sizes) v.
Proof.
  revert v. induction sizes as [|n sizes IH]; intros v; simpl; [done|].
  intros (l & -> & _ & Hl). exists l. split; [done|].
  eapply Forall_impl; [done|]. apply IH.
Qed.

(** On a nest of numbers of the right depth, storing succeeds when the
    lengths fit the shape and raises ValueError when they do not. *)
Lemma store_typed dt sizes v :
  typed (length sizes) v →
  regular sizes v
  ∨ (¬ regular sizes v ∧ recursive_store dt sizes v = Err ValueError).
Proof.
  revert v. induction sizes as [|n sizes IH]; intros v; simpl.
  - by left.
  - intros (l & -> & Hl). simpl. destruct (decide (length l = n)) as [Hlen|Hlen].
    + assert (Forall (λ x, regular sizes x
                ∨ (¬ regular sizes x
                   ∧ recursive_store dt sizes x = Err ValueError)) l)
        as Hcases by (eapply Forall_impl; [done|]; apply IH).
      apply Forall_or_first in Hcases as [Hall|(l1 & x & l2 & -> & Hl1 & Hnot & Herr)].
      * left. by exists l.
      * right. split.
        -- intros (l' & [= <-] & _ & Hall).
           apply Forall_app in Hall as [_ Hall]. by apply Forall_cons in Hall as [? _].
        -- rewrite (mapM_Err_first _ l1 l2 x ValueError); [done| |done].
           eapply Forall_impl; [done|]. intros y Hy. rewrite (store_regular _ _ _ Hy).
           by eexists.
    + right. split; [|done]. by intros (l' & [= <-] & ? & _).
Qed.

Lemma regular_1_inj n m v : regular [n] v → regular [m] v → n = m.
Proof. intros (l & -> & <- & _) (l' & [= <-] & <- & _). done. Qed.

Lemma any_sequence_inner_field r k :
  is_any_sequence r = true → k ∈ field_names →
  ∃ vs, inner_field r k = Ok (PList vs)
        ∧ Forall2 (λ x v, regular [width x] v) (items r) vs.
Proof.
  destruct r; try done. simpl. intros Hr Hk. unfold inner_field. simpl.
  rewrite forallb_forall in Hr.
  assert (Forall (λ x, ∃ v, subscript x k = Ok v ∧ regular [width x] v) l) as Hl.
  { apply Forall_forall. intros x Hx.
    destruct (is_timestep_field (width x) x k) as (v & Hv & Hvec); [|done|].
    - apply Hr. by apply list_elem_of_In.
    - exists v. split; [done|]. by apply is_vector_regular. }
  clear Hr. induction Hl as [|x l (v & Hv & Hreg) _ (vs & Hvs & Hall)]; simpl.
  - by exists [].
  - rewrite Hv. simpl.
    destruct (mapM (λ x, subscript x k) l) as [vs'|]; [|done].
    injection Hvs as <-. exists (v :: vs'). split; [done|]. by constructor.
Qed.

Lemma any_sequences_nested_field recs k :
  Forall (λ r, is_any_sequence r = true) recs → k ∈ field_names →
  ∃ rows, nested_field recs k = Ok (PList <$> rows)
          ∧ Forall2 (λ r vs, Forall2 (λ x v, regular [width x] v) (items r) vs)
              recs rows.
Proof.
  intros Hrecs Hk. unfold nested_field.
  induction Hrecs as [|r recs Hr _ (rows & Hrows & Hall)]; simpl.
  - by exists [].
  - destruct (any_sequence_inner_field r k Hr Hk) as (vs & -> & Hvs). simpl.
    rewrite Hrows. simpl. exists (vs :: rows). split; [done|]. by constructor.
Qed.

Lemma rows_typed recs rows :
  Forall2 (λ r vs, Forall2 (λ x v, regular [width x] v) (items r) vs) recs rows →
  typed 3 (PList (PList <$> rows)).
Proof.
  intros Hrows. exists (PList <$> rows). split; [done|].
  apply Forall_fmap, Forall_forall. intros vs Hvs.
  apply list_elem_of_lookup in Hvs as [i Hi].
  destruct (Forall2_lookup_r _ _ _ _ _ Hrows Hi) as (r & _ & Hr).
  exists vs. split; [done|]. apply Forall_forall. intros v Hv.
  apply list_elem_of_lookup in Hv as [j Hj].
  destruct (Forall2_lookup_r _ _ _ _ _ Hr Hj) as (x & _ & Hx).
  by apply (regular_typed [width x]).
Qed.

Lemma rows_regular recs rows B T F :
  Forall2 (λ r vs, Forall2 (λ x v, regular [width x] v) (items r) vs) recs rows →
  regular [B; T; F] (PList (PList <$> rows)) →
  Forall (λ r, length (items r) = T ∧ Forall (λ x, width x = F) (items r)) recs.
Proof.
  intros Hrows (l & [= <-] & _ & Hreg). rewrite Forall_fmap in Hreg.
  apply Forall_forall. intros r Hr.
  apply list_elem_of_lookup in Hr as [i Hi].
  destruct (Forall2_lookup_l _ _ _ _ _ Hrows Hi) as (vs & Hvs & Hrel).
  apply (Forall_lookup_1 _ _ _ _ Hreg) in Hvs as (l & [= <-] & Hlen & Hvecs).
  split.
  - by rewrite (Forall2_length _ _ _ Hrel).
  - apply Forall_forall. intros x Hx.
    apply list_elem_of_lookup in Hx as [j Hj].
    destruct (Forall2_lookup_l _ _ _ _ _ Hrel Hj) as (v & Hv & Hw).
    apply (Forall_lookup_1 _ _ _ _ Hvecs) in Hv.
    by apply (regular_1_inj _ _ v).
Qed.

Lemma any_sequence_length r : is_any_sequence r = true → seq_length r = length (items r).
Proof. by destruct r. Qed.

Lemma elem_of_steps recs x : x ∈ steps recs → ∃ r, r ∈ recs ∧ x ∈ items r.
Proof.
  unfold steps. intros Hx. apply list_elem_of_bind in Hx as (r & Hx & Hr).
  by exists r.
Qed.

Lemma number_sizes v : is_number v = true → compute_sizes v = Ok [].
Proof. by destruct v. Qed.

(** With a first time step that has a feature, the shape read off the first
    items has no zero extent, every list is checked against it, and a list of
    another length raises ValueError. *)
Lemma pack_mismatch_error recs x0 steps0 rest :
  recs = PList (x0 :: steps0) :: rest →
  width x0 ≠ 0%nat →
  Forall (λ r, is_any_sequence r = true) recs →
  (∃ r1 r2, r1 ∈ recs ∧ r2 ∈ recs ∧ seq_length r1 ≠ seq_length r2)
  ∨ (∃ x1 x2, x1 ∈ steps recs ∧ x2 ∈ steps recs ∧ width x1 ≠ width x2) →
  _pack_time_series recs = Err ValueError.
Proof.
  intros Hrecs Hw Hseqs Hdiff. unfold _pack_time_series.
  destruct (any_sequences_nested_field recs "values" Hseqs) as (rows & -> & Hrows);
    [in_fields|].
  destruct (any_sequences_nested_field recs "masks" Hseqs) as (? & -> & _);
    [in_fields|].
  destruct (any_sequences_nested_field recs "deltas" Hseqs) as (? & -> & _);
    [in_fields|].
  destruct (any_sequences_nested_field recs "forwards" Hseqs) as (? & -> & _);
    [in_fields|].
  destruct (any_sequences_nested_field recs "evals" Hseqs) as (? & -> & _);
    [in_fields|].
  destruct (any_sequences_nested_field recs "eval_masks" Hseqs) as (? & -> & _);
    [in_fields|].
  run.
  assert (torch_tensor (PList <$> rows) Float32 = Err ValueError) as ->; [|done].
  pose proof (rows_typed _ _ Hrows) as Htyped.
  pose proof (rows_regular _ _ (length recs) (length (x0 :: steps0)) (width x0) Hrows)
    as Hreg.
  unfold torch_tensor.
  assert (compute_sizes (PList (PList <$> rows))
          = Ok [length recs; length (x0 :: steps0); width x0]) as ->.
  { subst recs. inversion Hrows as [|? vs0 ? rows' Hvs0 Hrest]; subst.
    simpl in Hvs0. inversion Hvs0 as [|? v0 ? vs0' (nums & -> & Hlen & Hnums) Hr0]; subst.
    destruct nums as [|n0 nums]; [done|]. apply Forall_cons in Hnums as [Hn0 _].
    cbn [fmap list_fmap compute_sizes]. rewrite (number_sizes _ Hn0).
    cbn [fmap result_fmap]. rewrite <- Hlen, length_fmap. cbn [length].
    by rewrite (Forall2_length _ _ _ Hrest), (Forall2_length _ _ _ Hr0). }
  run. destruct (decide (MAX_DIMS < _)%nat) as [Hd|_]; [unfold MAX_DIMS in Hd; simpl in Hd; lia|].
  destruct (decide (numel _ = 0%nat)) as [Hz|_].
  { subst recs. simpl in Hz. lia. }
  destruct (store_typed Float32 [length recs; length (x0 :: steps0); width x0]
              (PList (PList <$> rows)) Htyped) as [Hok|[_ ->]]; [|done].
  exfalso. specialize (Hreg Hok). rewrite Forall_forall in Hreg.
  assert (∀ r, r ∈ recs → seq_length r = length (x0 :: steps0)) as Hlens.
  { intros r Hr. rewrite any_sequence_length.
    - by apply Hreg.
    - by apply (proj1 (Forall_forall _ _) Hseqs). }
  assert (∀ x, x ∈ steps recs → width x = width x0) as Hwidths.
  { intros st Hst. apply elem_of_steps in Hst as (r & Hr & Hst).
    destruct (Hreg r Hr) as [_ Hall]. rewrite Forall_forall in Hall. by apply Hall. }
  destruct Hdiff as [(r1 & r2 & H1 & H2 & Hne)|(st1 & st2 & H1 & H2 & Hne)].
  - apply Hne. by rewrite (Hlens r1), (Hlens r2).
  - apply Hne. by rewrite (Hwidths st1), (Hwidths st2).
Qed.

(** ** Shapes without elements *)

Lemma torch_tensor_zero vals dt sizes :
  compute_sizes (PList vals) = Ok sizes → numel sizes = 0%nat →
  (length sizes ≤ MAX_DIMS)%nat →
  torch_tensor vals dt = Ok {| t_dtype := dt; shape := sizes; data := [] |}.
Proof.
  intros Hsizes Hz Hdims. unfold torch_tensor. rewrite Hsizes. run.
  destruct (decide (MAX_DIMS < length sizes)%nat); [lia|].
  by destruct (decide (numel sizes = 0%nat)).
Qed.

Lemma pack_zero_extent recs sizes :
  (∀ k, k ∈ field_names →
     ∃ vals, nested_field recs k = Ok vals ∧ compute_sizes (PList vals) = Ok sizes) →
  numel sizes = 0%nat → (length sizes ≤ MAX_DIMS)%nat →
  ∃ p, _pack_time_series recs = Ok p
       ∧ Forall (λ t, shape t = sizes ∧ data t = []) (tensors p).
Proof.
  intros Hfields Hz Hdims. unfold _pack_time_series.
  destruct (Hfields "values") as (v1 & -> & S1); [in_fields|].
  destruct (Hfields "masks") as (v2 & -> & S2); [in_fields|].
  destruct (Hfields "deltas") as (v3 & -> & S3); [in_fields|].
  destruct (Hfields "forwards") as (v4 & -> & S4); [in_fields|].
  destruct (Hfields "evals") as (v5 & -> & S5); [in_fields|].
  destruct (Hfields "eval_masks") as (v6 & -> & S6); [in_fields|].
  run.
  rewrite (torch_tensor_zero v1 _ _ S1 Hz Hdims), (torch_tensor_zero v2 _ _ S2 Hz Hdims),
    (torch_tensor_zero v3 _ _ S3 Hz Hdims), (torch_tensor_zero v4 _ _ S4 Hz Hdims),
    (torch_tensor_zero v5 _ _ S5 Hz Hdims), (torch_tensor_zero v6 _ _ S6 Hz Hdims).
  run. eexists. split; [done|]. unfold tensors, packed_fields.
  cbn [fmap list_fmap snd]. by repeat constructor.
Qed.

Lemma pack_empty_first rest :
  Forall (λ r, is_any_sequence r = true) rest →
  ∃ p, _pack_time_series (PList [] :: rest) = Ok p
       ∧ Forall (λ t, shape t = [S (length rest); 0%nat] ∧ data t = []) (tensors p).
Proof.
  intros Hrest. apply pack_zero_extent; [|simpl; lia|unfold MAX_DIMS; simpl; lia].
  intros k Hk.
  destruct (any_sequences_nested_field (PList [] :: rest) k) as (rows & Hrows & Hrel);
    [by constructor|done|].
  exists (PList <$> rows). split; [done|].
  inversion Hrel as [|? vs0 ? rows' Hvs0 Hrest']; subst.
  simpl in Hvs0. inversion Hvs0; subst. cbn [fmap list_fmap compute_sizes].
  by rewrite length_fmap, <- (Forall2_length _ _ _ Hrest').
Qed.

Lemma pack_featureless_first x0 steps0 rest :
  Forall (λ r, is_any_sequence r = true) (PList (x0 :: steps0) :: rest) →
  width x0 = 0%nat →
  ∃ p, _pack_time_series (PList (x0 :: steps0) :: rest) = Ok p
       ∧ Forall (λ t, shape t = [S (length rest); S (length steps0); 0%nat]
                      ∧ data t = []) (tensors p).
Proof.
  intros Hrecs Hw. apply pack_zero_extent; [|simpl; lia|unfold MAX_DIMS; simpl; lia].
  intros k Hk.
  destruct (any_sequences_nested_field _ k Hrecs Hk) as (rows & Hrows & Hrel).
  exists (PList <$> rows). split; [done|].
  inversion Hrel as [|? vs0 ? rows' Hvs0 Hrest']; subst.
  simpl in Hvs0. inversion Hvs0 as [|? v0 ? vs0' (nums & -> & Hlen & _) Hr0]; subst.
  rewrite Hw in Hlen. destruct nums; [|done].
  cbn [fmap list_fmap compute_sizes result_fmap].
  by rewrite length_fmap, <- (Forall2_length _ _ _ Hrest'), <- (Forall2_length _ _ _ Hr0).
Qed.

(** C6, as amended: on a batch of sequences of time steps, when the first
    sequence has a first time step and that step has at least one feature,
    two sequences that differ in T, or two time steps that differ in F, make
    packing fail with ValueError, and no batch is returned.  When the first
    sequence is empty, or its first step has no feature, packing does not
    fail whatever the other sequences are: it returns tensors without
    elements, of shape [B, 0] and [B, T, 0]. *)
Theorem pack_rejects_mismatch recs :
  Forall (λ r, is_any_sequence r = true) recs →
  (∀ x0 steps0 rest,
     recs = PList (x0 :: steps0) :: rest → width x0 ≠ 0%nat →
     (∃ r1 r2, r1 ∈ recs ∧ r2 ∈ recs ∧ seq_length r1 ≠ seq_length r2)
     ∨ (∃ x1 x2, x1 ∈ steps recs ∧ x2 ∈ steps recs ∧ width x1 ≠ width x2) →
     _pack_time_series recs = Err ValueError)
  ∧ (∀ rest,
       recs = PList [] :: rest →
       ∃ p, _pack_time_series recs = Ok p
         ∧ Forall (λ t, shape t = [length recs; 0%nat] ∧ data t = []) (tensors p))
  ∧ (∀ x0 steps0 rest,
       recs = PList (x0 :: steps0) :: rest → width x0 = 0%nat →
       ∃ p, _pack_time_series recs = Ok p
         ∧ Forall (λ t, shape t = [length recs; S (length steps0); 0%nat]
                        ∧ data t = []) (tensors p)).
Proof.
  intros Hrecs. split_and!.
  - intros x0 steps0 rest Heq Hw Hdiff. by eapply pack_mismatch_error.
  - intros rest ->. apply Forall_cons in Hrecs as [_ Hrest].
    by apply pack_empty_first.
  - intros x0 steps0 rest -> Hw. by apply pack_featureless_first.
Qed.

(** ** Entries along the batch axis *)

Lemma length_concat_uniform {A} (rows : list (list A)) w :
  Forall (λ r, length r = w) rows → length (concat rows) = (length rows * w)%nat.
Proof.
  induction 1 as [|r rows Hr _ IH]; simpl; [done|].
  rewrite length_app, IH, Hr. done.
Qed.

Lemma concat_block {A} (rows : list (list A)) w b r :
  Forall (λ r, length r = w) rows → rows !! b = Some r →
  take w (drop (b * w) (concat rows)) = r.
Proof.
  intros Hrows. revert b. induction Hrows as [|r0 rows Hr0 _ IH]; intros b Hb.
  - done.
  - destruct b as [|b]; cbn [concat] in *.
    + injection Hb as ->. rewrite Nat.mul_0_l, drop_0. by rewrite take_app_length'.
    + change (S b * w)%nat with (w + b * w)%nat.
      rewrite drop_app_add'; [|done]. by apply IH.
Qed.

Lemma store_length dt sizes v d :
  recursive_store dt sizes v = Ok d → length d = numel sizes.
Proof.
  revert v d. induction sizes as [|n sizes IH]; intros v d; simpl.
  - intros Hd. apply bind_Ok in Hd as (q & _ & [= <-]). done.
  - intros Hd. apply bind_Ok in Hd as (l & _ & Hd).
    destruct (decide (length l = n)) as [<-|]; [|done].
    apply bind_Ok in Hd as (rows & Hrows & [= <-]).
    rewrite (length_concat_uniform rows (numel sizes)).
    + by rewrite (mapM_length _ _ _ Hrows).
    + apply mapM_Ok in Hrows. apply Forall_forall. intros r Hr.
      apply list_elem_of_lookup in Hr as [i Hi].
      destruct (Forall2_lookup_r _ _ _ _ _ Hrows Hi) as (x & _ & Hx).
      by eapply IH.
Qed.

Lemma list_sizes l sizes :
  compute_sizes (PList l) = Ok sizes →
  ∃ sizes', sizes = length l :: sizes'.
Proof.
  destruct l as [|x l]; simpl.
  - intros [= <-]. by exists [].
  - destruct (compute_sizes x) as [s|]; [|done]. intros [= <-]. by exists s.
Qed.

Lemma torch_tensor_Ok vals dt t :
  torch_tensor vals dt = Ok t →
  t_dtype t = dt
  ∧ compute_sizes (PList vals) = Ok (shape t)
  ∧ (numel (shape t) ≠ 0%nat →
     recursive_store dt (shape t) (PList vals) = Ok (data t)).
Proof.
  unfold torch_tensor. intros Ht. apply bind_Ok in Ht as (sizes & Hsizes & Ht).
  destruct (decide (MAX_DIMS < length sizes)%nat); [done|].
  apply bind_Ok in Ht as (d & Hd & [= <-]). simpl. split_and!; [done..|].
  intros Hnz. by destruct (decide (numel sizes = 0%nat)).
Qed.

Lemma tensor_batch_axis vals dt t :
  torch_tensor vals dt = Ok t → head (shape t) = Some (length vals).
Proof.
  intros Ht. apply torch_tensor_Ok in Ht as (_ & Hsizes & _).
  apply list_sizes in Hsizes as [sizes' ->]. done.
Qed.

Lemma tensor_entry vals dt t b v :
  torch_tensor vals dt = Ok t → vals !! b = Some v → comes_from t b v.
Proof.
  intros Ht Hb Hnz. apply torch_tensor_Ok in Ht as (-> & Hsizes & Hstore).
  specialize (Hstore Hnz). unfold entry.
  apply list_sizes in Hsizes as [sizes' Hshape]. rewrite Hshape in *.
  cbn [tail]. simpl in Hstore.
  destruct (decide (length vals = length vals)); [|done].
  apply bind_Ok in Hstore as (rows & Hrows & [= <-]).
  destruct (mapM_lookup _ _ _ _ _ Hrows Hb) as (r & Hr & Hv). rewrite Hv. f_equal.
  symmetry. apply concat_block; [|done].
  apply mapM_Ok in Hrows. apply Forall_forall. intros r' Hr'.
  apply list_elem_of_lookup in Hr' as [i Hi].
  destruct (Forall2_lookup_r _ _ _ _ _ Hrows Hi) as (x & _ & Hx).
  by eapply store_length.
Qed.

(** For a tensor of scalars, the entry is the number itself, narrowed to
    the element type. *)
Lemma comes_from_scalar t b v n :
  shape t = [n] → (b < n)%nat → comes_from t b v →
  ∃ x, unpack_double v = Ok x ∧ data t !! b = Some (cast (t_dtype t) x).
Proof.
  intros Hshape Hb Hfrom. unfold comes_from, entry in Hfrom. rewrite Hshape in Hfrom.
  cbn [tail numel foldr recursive_store] in Hfrom.
  specialize (Hfrom ltac:(lia)).
  apply bind_Ok in Hfrom as (y & Hy & Hentry).
  apply store_scalar_Ok in Hy as (x & Hx & ->).
  exists x. split; [done|]. injection Hentry as Hq. rewrite Nat.mul_1_r in Hq.
  assert (drop b (data t) !! 0%nat = Some (cast (t_dtype t) x)) as H0.
  { destruct (drop b (data t)); simpl in Hq; by simplify_eq. }
  by rewrite lookup_drop, Nat.add_0_r in H0.
Qed.

Lemma nested_field_lookup recs k vals b r :
  nested_field recs k = Ok vals → recs !! b = Some r →
  ∃ v, vals !! b = Some v ∧ inner_field r k = Ok v.
Proof.
  unfold nested_field. intros Hvals Hb.
  by destruct (mapM_lookup _ _ _ _ _ Hvals Hb) as (v & Hv & Hin); exists v.
Qed.

Lemma field_entry recs k vals t b r :
  nested_field recs k = Ok vals → torch_tensor vals Float32 = Ok t →
  recs !! b = Some r →
  (∃ v, inner_field r k = Ok v ∧ comes_from t b v)
  ∧ head (shape t) = Some (length recs).
Proof.
  intros Hvals Ht Hb. split.
  - destruct (nested_field_lookup _ _ _ _ _ Hvals Hb) as (v & Hv & Hin).
    exists v. split; [done|]. by eapply tensor_entry.
  - rewrite (tensor_batch_axis _ _ _ Ht). f_equal. by eapply mapM_length.
Qed.

Lemma pack_entries recs p b r :
  _pack_time_series recs = Ok p → recs !! b = Some r →
  Forall (λ f, ∃ v, inner_field r f.1 = Ok v ∧ comes_from (f.2 p) b v)
    packed_fields
  ∧ Forall (λ t, head (shape t) = Some (length recs)) (tensors p).
Proof.
  unfold _pack_time_series. intros Hp Hb.
  apply bind_Ok in Hp as (v1 & Hv1 & Hp). apply bind_Ok in Hp as (v2 & Hv2 & Hp).
  apply bind_Ok in Hp as (v3 & Hv3 & Hp). apply bind_Ok in Hp as (v4 & Hv4 & Hp).
  apply bind_Ok in Hp as (v5 & Hv5 & Hp). apply bind_Ok in Hp as (v6 & Hv6 & Hp).
  apply bind_Ok in Hp as (t1 & Ht1 & Hp). apply bind_Ok in Hp as (t2 & Ht2 & Hp).
  apply bind_Ok in Hp as (t3 & Ht3 & Hp). apply bind_Ok in Hp as (t4 & Ht4 & Hp).
  apply bind_Ok in Hp as (t5 & Ht5 & Hp). apply bind_Ok in Hp as (t6 & Ht6 & Hp).
  injection Hp as <-.
  destruct (field_entry _ _ _ _ _ _ Hv1 Ht1 Hb) as [E1 A1].
  destruct (field_entry _ _ _ _ _ _ Hv2 Ht2 Hb) as [E2 A2].
  destruct (field_entry _ _ _ _ _ _ Hv3 Ht3 Hb) as [E3 A3].
  destruct (field_entry _ _ _ _ _ _ Hv4 Ht4 Hb) as [E4 A4].
  destruct (field_entry _ _ _ _ _ _ Hv5 Ht5 Hb) as [E5 A5].
  destruct (field_entry _ _ _ _ _ _ Hv6 Ht6 Hb) as [E6 A6].
  unfold tensors, packed_fields. cbn [fmap list_fmap fst snd values masks deltas
    forwards evals eval_masks].
  split; repeat constructor; done.
Qed.

(** ** Where an element lands *)
Lemma lookup_concat_uniform {A} (rows : list (list A)) w i j r :
  Forall (λ r, length r = w) rows → rows !! i = Some r → (j < w)%nat →
  concat rows !! (i * w + j)%nat = r !! j.
Proof.
  intros Hrows Hi Hj. rewrite <- (concat_block rows w i r Hrows Hi).
  rewrite lookup_take_lt by done. by rewrite lookup_drop.
Qed.

Lemma store_item dt n sizes vals d i x :
  recursive_store dt (n :: sizes) (PList vals) = Ok d → vals !! i = Some x →
  length vals = n
  ∧ ∃ dx, recursive_store dt sizes x = Ok dx
      ∧ ∀ j, (j < numel sizes)%nat → d !! (i * numel sizes + j)%nat = dx !! j.
Proof.
  simpl. intros Hd Hi. destruct (decide (length vals = n)) as [Hlen|]; [|done].
  split; [done|]. apply bind_Ok in Hd as (rows & Hrows & [= <-]).
  destruct (mapM_lookup _ _ _ _ _ Hrows Hi) as (dx & Hdx & Hx).
  exists dx. split; [done|]. intros j Hj. apply lookup_concat_uniform; [|done..].
  apply mapM_Ok in Hrows. apply Forall_forall. intros r Hr.
  apply list_elem_of_lookup in Hr as [i' Hi'].
  destruct (Forall2_lookup_r _ _ _ _ _ Hrows Hi') as (y & _ & Hy).
  by eapply store_length.
Qed.

Lemma tensor_element vals dt t B T F b row tt vec f v :
  torch_tensor vals dt = Ok t → shape t = [B; T; F] →
  T ≠ 0%nat → F ≠ 0%nat →
  vals !! b = Some (PList row) → row !! tt = Some (PList vec) → vec !! f = Some v →
  ∃ q, unpack_double v = Ok q
       ∧ data t !! (b * (T * F) + tt * F + f)%nat = Some (cast dt q).
Proof.
  intros Ht Hshape HT HF Hb Htt Hf.
  apply torch_tensor_Ok in Ht as (_ & Hsizes & Hstore). rewrite Hshape in *.
  apply list_sizes in Hsizes as [sizes' [= -> _]].
  pose proof (lookup_lt_Some _ _ _ Hb) as HbB.
  assert (numel [length vals; T; F] ≠ 0%nat) as Hnz.
  { simpl. rewrite Nat.mul_1_r. intros Hz.
    apply Nat.eq_mul_0 in Hz as [?|Hz]; [lia|]. apply Nat.eq_mul_0 in Hz. lia. }
  destruct (store_item _ _ _ _ _ _ _ (Hstore Hnz) Hb) as (_ & d1 & Hd1 & Hl1).
  destruct (store_item _ _ _ _ _ _ _ Hd1 Htt) as (HlenT & d2 & Hd2 & Hl2).
  destruct (store_item _ _ _ _ _ _ _ Hd2 Hf) as (HlenF & d3 & Hd3 & Hl3).
  pose proof (lookup_lt_Some _ _ _ Htt) as HttT.
  pose proof (lookup_lt_Some _ _ _ Hf) as HfF.
  cbn [recursive_store] in Hd3. apply bind_Ok in Hd3 as (y & Hy & [= <-]).
  apply store_scalar_Ok in Hy as (q & Hq & ->). exists q. split; [done|].
  simpl in Hl1, Hl2, Hl3.
  specialize (Hl3 0%nat ltac:(lia)). specialize (Hl2 (f * 1 + 0)%nat ltac:(lia)).
  specialize (Hl1 (tt * (F * 1) + (f * 1 + 0))%nat ltac:(nia)).
  rewrite Hl2, Hl3 in Hl1. simpl in Hl1. rewrite <- Hl1. f_equal. lia.
Qed.

Lemma pack_field recs p f :
  _pack_time_series recs = Ok p → f ∈ packed_fields →
  ∃ vals, nested_field recs f.1 = Ok vals ∧ torch_tensor vals Float32 = Ok (f.2 p).
Proof.
  unfold _pack_time_series. intros Hp Hf.
  apply bind_Ok in Hp as (v1 & Hv1 & Hp). apply bind_Ok in Hp as (v2 & Hv2 & Hp).
  apply bind_Ok in Hp as (v3 & Hv3 & Hp). apply bind_Ok in Hp as (v4 & Hv4 & Hp).
  apply bind_Ok in Hp as (v5 & Hv5 & Hp). apply bind_Ok in Hp as (v6 & Hv6 & Hp).
  apply bind_Ok in Hp as (t1 & Ht1 & Hp). apply bind_Ok in Hp as (t2 & Ht2 & Hp).
  apply bind_Ok in Hp as (t3 & Ht3 & Hp). apply bind_Ok in Hp as (t4 & Ht4 & Hp).
  apply bind_Ok in Hp as (t5 & Ht5 & Hp). apply bind_Ok in Hp as (t6 & Ht6 & Hp).
  injection Hp as <-. apply list_elem_of_In in Hf. simpl in Hf.
  destruct Hf as [<-|[<-|[<-|[<-|[<-|[<-|[]]]]]]]; simpl; eauto.
Qed.

Lemma collate_Ok_inv recs batch :
  collate_fn recs = Ok batch →
  ∃ fws bws lbls flags,
    mapM (λ x, subscript x "forward") recs = Ok fws
    ∧ mapM (λ x, subscript x "backward") recs = Ok bws
    ∧ _pack_time_series fws = Ok (forward batch)
    ∧ _pack_time_series bws = Ok (backward batch)
    ∧ mapM (λ x, subscript x "label") recs = Ok lbls
    ∧ torch_tensor lbls Float32 = Ok (labels batch)
    ∧ mapM (λ x, subscript x "is_train") recs = Ok flags
    ∧ torch_tensor flags Float32 = Ok (is_train batch).
Proof.
  unfold collate_fn. intros Hc.
  apply bind_Ok in Hc as (fws & Hfws & Hc). apply bind_Ok in Hc as (bws & Hbws & Hc).
  apply bind_Ok in Hc as (pf & Hpf & Hc). apply bind_Ok in Hc as (pb & Hpb & Hc).
  apply bind_Ok in Hc as (lbls & Hlbls & Hc). apply bind_Ok in Hc as (tl & Htl & Hc).
  apply bind_Ok in Hc as (flags & Hflags & Hc). apply bind_Ok in Hc as (tf & Htf & Hc).
  injection Hc as <-. by exists fws, bws, lbls, flags.
Qed.

(** In a field tensor of shape [B, T, F] the element at row-major position
    b*T*F + t*F + f is feature f of time step t of example b, narrowed to
    float32. *)
Lemma collate_element_at recs batch dir fld B T F b x steps t step vec f v :
  collate_fn recs = Ok batch →
  dir ∈ directions → fld ∈ packed_fields →
  shape (fld.2 (dir.2 batch)) = [B; T; F] → T ≠ 0%nat → F ≠ 0%nat →
  recs !! b = Some x →
  subscript x dir.1 = Ok (PList steps) → steps !! t = Some step →
  subscript step fld.1 = Ok (PList vec) → vec !! f = Some v →
  ∃ q, unpack_double v = Ok q
       ∧ data (fld.2 (dir.2 batch)) !! (b * (T * F) + t * F + f)%nat = Some (single q).
Proof.
  intros Hc Hdir Hfld Hshape HT HF Hb Hsteps Ht Hvec Hf.
  destruct (collate_Ok_inv _ _ Hc)
    as (fws & bws & lbls & flags & Hfws & Hbws & Hpf & Hpb & _).
  assert (∃ seqs, _pack_time_series seqs = Ok (dir.2 batch)
                  ∧ seqs !! b = Some (PList steps)) as (seqs & Hpack & Hseq).
  { apply list_elem_of_In in Hdir. simpl in Hdir.
    destruct Hdir as [<-|[<-|[]]]; cbn [fst snd] in *.
    - exists fws. split; [done|].
      destruct (mapM_lookup _ _ _ _ _ Hfws Hb) as (y & Hy & Hxy). congruence.
    - exists bws. split; [done|].
      destruct (mapM_lookup _ _ _ _ _ Hbws Hb) as (y & Hy & Hxy). congruence. }
  destruct (pack_field _ _ _ Hpack Hfld) as (vals & Hvals & Htensor).
  destruct (nested_field_lookup _ _ _ _ _ Hvals Hseq) as (rowv & Hrowv & Hinner).
  unfold inner_field in Hinner. simpl in Hinner.
  destruct (mapM (λ s, subscript s fld.1) steps) as [row|] eqn:Hrow; [|done].
  injection Hinner as <-.
  destruct (mapM_lookup _ _ _ _ _ Hrow Ht) as (y & Hy & Hstep).
  rewrite Hvec in Hstep. injection Hstep as <-.
  by eapply (tensor_element vals Float32).
Qed.

Lemma field_in_tensors (batch : Batch) dir fld :
  dir ∈ directions → fld ∈ packed_fields →
  fld.2 (dir.2 batch) ∈ tensors (forward batch) ++ tensors (backward batch).
Proof.
  intros Hdir Hfld. apply list_elem_of_In in Hdir, Hfld. simpl in Hdir, Hfld.
  unfold tensors, packed_fields. cbn [fmap list_fmap snd app].
  destruct Hdir as [<-|[<-|[]]]; destruct Hfld as [<-|[<-|[<-|[<-|[<-|[<-|[]]]]]]];
    apply list_elem_of_In; simpl; tauto.
Qed.

Lemma is_example_direction T F x dir v :
  is_example T F x = true → dir ∈ directions → subscript x dir.1 = Ok v →
  is_sequence T F v = true.
Proof.
  intros Hx Hdir Hv. apply is_example_fields in Hx as ((fw & Hfw & Sfw) & (bw & Hbw & Sbw) & _).
  apply list_elem_of_In in Hdir. simpl in Hdir.
  destruct Hdir as [<-|[<-|[]]]; cbn [fst] in Hv; congruence.
Qed.

Lemma is_sequence_step T F steps t step :
  is_sequence T F (PList steps) = true → steps !! t = Some step →
  length steps = T ∧ is_timestep F step = true.
Proof.
  simpl. intros Hs Ht. apply andb_prop in Hs as [Hlen Hsteps].
  apply bool_decide_eq_true in Hlen. split; [done|].
  rewrite forallb_forall in Hsteps. apply Hsteps, list_elem_of_In.
  by eapply list_elem_of_lookup_2.
Qed.

Lemma is_timestep_vec F step fld vec :
  is_timestep F step = true → fld ∈ packed_fields →
  subscript step fld.1 = Ok (PList vec) → length vec = F.
Proof.
  intros Hstep Hfld Hvec.
  destruct (is_timestep_field F step fld.1 Hstep) as (v & Hv & Hvector).
  { apply list_elem_of_In in Hfld. simpl in Hfld.
    destruct Hfld as [<-|[<-|[<-|[<-|[<-|[<-|[]]]]]]]; in_fields. }
  rewrite Hvec in Hv. injection Hv as <-. simpl in Hvector.
  apply andb_prop in Hvector as [Hlen _]. by apply bool_decide_eq_true in Hlen.
Qed.

(** C5: whenever collate returns a batch, every tensor has the length of
    the input list as its first extent, and entry b of labels, of is_train
    and of each field tensor of both directions is what example b itself
    holds in that field, stored at the shape of one entry.  On well-formed
    examples of T steps and F features nothing is left open: labels and
    is_train are vectors whose element b is the label and the flag of
    example b as float32 numbers, and each field tensor has shape [B, T, F]
    and holds, at position b*T*F + t*F + f, feature f of time step t of
    example b in that field and direction. *)
Theorem collate_preserves_order recs batch b x :
  collate_fn recs = Ok batch → recs !! b = Some x →
  ∃ fw bw lab flag,
    subscript x "forward" = Ok fw ∧ subscript x "backward" = Ok bw
    ∧ subscript x "label" = Ok lab ∧ subscript x "is_train" = Ok flag
    ∧ comes_from (labels batch) b lab
    ∧ comes_from (is_train batch) b flag
    ∧ Forall (λ f, ∃ v, inner_field fw f.1 = Ok v
                        ∧ comes_from (f.2 (forward batch)) b v) packed_fields
    ∧ Forall (λ f, ∃ v, inner_field bw f.1 = Ok v
                        ∧ comes_from (f.2 (backward batch)) b v) packed_fields
    ∧ Forall (λ t, head (shape t) = Some (length recs))
        (labels batch :: is_train batch
           :: tensors (forward batch) ++ tensors (backward batch))
    ∧ (∀ T F, Forall (λ x, is_example T F x = true) recs →
         (shape (labels batch) = [length recs]
          ∧ ∃ q, unpack_double lab = Ok q
                 ∧ data (labels batch) !! b = Some (single q))
         ∧ (shape (is_train batch) = [length recs]
            ∧ ∃ q, unpack_double flag = Ok q
                   ∧ data (is_train batch) !! b = Some (single q))
         ∧ ∀ dir fld steps t step vec f v,
             dir ∈ directions → fld ∈ packed_fields →
             subscript x dir.1 = Ok (PList steps) → steps !! t = Some step →
             subscript step fld.1 = Ok (PList vec) → vec !! f = Some v →
             shape (fld.2 (dir.2 batch)) = [length recs; T; F]
             ∧ ∃ q, unpack_double v = Ok q
                    ∧ data (fld.2 (dir.2 batch))
                        !! (b * (T * F) + t * F + f)%nat = Some (single q)).
Proof.
  intros Hc Hb.
  destruct (collate_Ok_inv _ _ Hc)
    as (fws & bws & lbls & flags & Hfws & Hbws & Hpf & Hpb & Hlbls & Htl & Hflags & Htf).
  destruct (mapM_lookup _ _ _ _ _ Hfws Hb) as (fw & Hfw & Hxfw).
  destruct (mapM_lookup _ _ _ _ _ Hbws Hb) as (bw & Hbw & Hxbw).
  destruct (mapM_lookup _ _ _ _ _ Hlbls Hb) as (lab & Hlab & Hxlab).
  destruct (mapM_lookup _ _ _ _ _ Hflags Hb) as (flag & Hflag & Hxflag).
  destruct (pack_entries _ _ _ _ Hpf Hfw) as [Ef Af].
  destruct (pack_entries _ _ _ _ Hpb Hbw) as [Eb Ab].
  rewrite (mapM_length _ _ _ Hfws) in Af. rewrite (mapM_length _ _ _ Hbws) in Ab.
  pose proof (lookup_lt_Some _ _ _ Hb) as Hlt.
  assert (comes_from (labels batch) b lab) as Clab by (by eapply tensor_entry).
  assert (comes_from (is_train batch) b flag) as Cflag by (by eapply tensor_entry).
  exists fw, bw, lab, flag. split_and!; try done.
  - apply Forall_cons_2; [|apply Forall_cons_2; [|by apply Forall_app_2]].
    + rewrite (tensor_batch_axis _ _ _ Htl). f_equal. by eapply mapM_length.
    + rewrite (tensor_batch_axis _ _ _ Htf). f_equal. by eapply mapM_length.
  - intros T F Hwf.
    destruct (collate_examples T F recs) as (batch' & Hc' & Hfields & [Sl Dl] & [Sf Df]);
      [by destruct recs|done|].
    rewrite Hc in Hc'. injection Hc' as <-.
    split; [|split].
    + split; [done|].
      destruct (comes_from_scalar _ b lab _ Sl Hlt Clab) as (q & Hq & Hdata).
      exists q. split; [done|]. by rewrite Hdata, Dl.
    + split; [done|].
      destruct (comes_from_scalar _ b flag _ Sf Hlt Cflag) as (q & Hq & Hdata).
      exists q. split; [done|]. by rewrite Hdata, Df.
    + intros dir fld steps t step vec f v Hdir Hfld Hsteps Ht Hvec Hf.
      pose proof (Forall_lookup_1 _ _ _ _ Hwf Hb) as Hx. cbv beta in Hx.
      pose proof (is_example_direction _ _ _ _ _ Hx Hdir Hsteps) as Hseq.
      destruct (is_sequence_step _ _ _ _ _ Hseq Ht) as [HT Hstep].
      pose proof (is_timestep_vec _ _ _ _ Hstep Hfld Hvec) as HF.
      pose proof (lookup_lt_Some _ _ _ Ht) as HtT.
      pose proof (lookup_lt_Some _ _ _ Hf) as HfF.
      assert (shape (fld.2 (dir.2 batch)) = [length recs; T; F]) as Hshape.
      { rewrite Forall_forall in Hfields.
        destruct (Hfields _ (field_in_tensors batch dir fld Hdir Hfld)) as [-> _].
        unfold field_shape. destruct (decide (T = 0%nat)); [lia|done]. }
      split; [done|].
      eapply (collate_element_at recs batch dir fld); try done; lia.
Qed.

(** C10: collate on the empty list returns a batch; labels, is_train and
    the six field tensors of each direction all have shape [0], one axis and
    no element, not the three axes of a non-empty batch. *)
Theorem collate_empty :
  collate_fn [] = Ok empty_batch
  ∧ Forall (λ t, shape t = [0%nat] ∧ data t = [] ∧ t_dtype t = Float32)
      (labels empty_batch :: is_train empty_batch
         :: tensors (forward empty_batch) ++ tensors (backward empty_batch)).
Proof. split; [reflexivity|]. repeat constructor. Qed.

(** ** Missing fields *)

Lemma collate_Ok_subscript recs batch x k :
  collate_fn recs = Ok batch → x ∈ recs →
  k ∈ ["forward"; "backward"; "label"; "is_train"] →
  is_Ok (subscript x k).
Proof.
  unfold collate_fn. intros Hc Hx Hk.
  apply bind_Ok in Hc as (fws & Hfws & Hc). apply bind_Ok in Hc as (bws & Hbws & Hc).
  apply bind_Ok in Hc as (pf & _ & Hc). apply bind_Ok in Hc as (pb & _ & Hc).
  apply bind_Ok in Hc as (lbls & Hlbls & Hc). apply bind_Ok in Hc as (tl & _ & Hc).
  apply bind_Ok in Hc as (flags & Hflags & _).
  apply list_elem_of_lookup in Hx as [b Hb].
  apply list_elem_of_In in Hk. simpl in Hk.
  destruct Hk as [<-|[<-|[<-|[<-|[]]]]].
  - destruct (mapM_lookup _ _ _ _ _ Hfws Hb) as (v & _ & Hv). by exists v.
  - destruct (mapM_lookup _ _ _ _ _ Hbws Hb) as (v & _ & Hv). by exists v.
  - destruct (mapM_lookup _ _ _ _ _ Hlbls Hb) as (v & _ & Hv). by exists v.
  - destruct (mapM_lookup _ _ _ _ _ Hflags Hb) as (v & _ & Hv). by exists v.
Qed.

(** C8, as amended: get(i) fails at the call itself when line i does not
    decode (JSONDecodeError) or decodes to something other than an object
    (TypeError).  It does not look for forward, backward or label: whatever
    object the line decodes to is returned with is_train added and its other
    entries as they were, and a missing field surfaces later, when collate
    fails on any list that holds the record. *)
Theorem getitem_errors (self : MySet.t) (i : Z) (l : line) :
  0 ≤ i < MySet.__len__ self →
  MySet.content self !! Z.to_nat i = Some l →
  (l = Undecodable → MySet.__getitem__ self i = Err JSONDecodeError)
  ∧ (∀ v, l = Decodes v → (∀ kvs, v ≠ PDict kvs) →
     MySet.__getitem__ self i = Err TypeError)
  ∧ (∀ kvs, l = Decodes (PDict kvs) →
     ∃ rec, MySet.__getitem__ self i = Ok rec
       ∧ (∀ k, k ≠ "is_train" → subscript rec k = subscript (PDict kvs) k)
       ∧ (∀ k recs, k ∈ ["forward"; "backward"; "label"] →
          dict_get kvs k = None → rec ∈ recs → is_Err (collate_fn recs))).
Proof.
  intros Hi Hl. unfold MySet.__len__ in Hi. unfold MySet.__getitem__, list_index.
  destruct (decide (i < 0)); [lia|].
  destruct (decide (0 ≤ i < _)); [|lia].
  rewrite Hl. split_and!.
  - by intros ->.
  - intros v -> Hv. simpl. destruct v; try done. by destruct (Hv kvs).
  - intros kvs ->. simpl. eexists. split; [done|]. split.
    + intros k Hk. simpl. by rewrite dict_get_set_ne.
    + intros k recs Hk Hnone Hrec.
      destruct (collate_fn recs) as [batch|e] eqn:Hc; [|by exists e].
      destruct (collate_Ok_subscript recs batch _ k Hc Hrec) as [v Hv].
      * apply list_elem_of_In in Hk. apply list_elem_of_In. simpl in *. tauto.
      * simpl in Hv. rewrite dict_get_set_ne, Hnone in Hv; [done|].
        intros <-. apply list_elem_of_In in Hk. simpl in Hk.
        by destruct Hk as [|[|[|[]]]].
Qed.

(** ** The claims about the packer, run on the sample records *)

(** C4 as stated fails without time steps: a well-formed example with
    T = 0 is packed into field tensors of two axes, not three. *)
Lemma collate_no_time_steps :
  is_example 0 2 (sample_example 0 1 1) = true
  ∧ ∃ batch, collate_fn [sample_example 0 1 1] = Ok batch
      ∧ shape (values (forward batch)) = [1; 0]%nat
      ∧ shape (values (forward batch)) ≠ [1; 0; 2]%nat.
Proof. split; [reflexivity|]. eexists. split_and!; [reflexivity|reflexivity|done]. Qed.

Lemma collate_shapes_witness :
  ∃ batch, collate_fn sample_pair = Ok batch
    ∧ Forall (λ t, shape t = [2; 3; 2]%nat ∧ t_dtype t = Float32)
        (tensors (forward batch) ++ tensors (backward batch))
    ∧ (shape (labels batch) = [2%nat] ∧ t_dtype (labels batch) = Float32)
    ∧ (shape (is_train batch) = [2%nat] ∧ t_dtype (is_train batch) = Float32).
Proof.
  apply (collate_shapes 3 2 sample_pair).
  - unfold sample_pair. discriminate.
  - unfold sample_pair. repeat constructor.
Defined.

(** C6 as stated fails when the first sequence is empty: sequences of 0 and
    of 3 time steps are packed, into tensors of shape [2, 0] that hold
    nothing of the second. *)
Lemma pack_accepts_empty_first :
  seq_length (PList []) ≠ seq_length (PList (replicate 3 (sample_step (1 # 2) (3 # 4))))
  ∧ ∃ p, _pack_time_series
           [PList []; PList (replicate 3 (sample_step (1 # 2) (3 # 4)))] = Ok p
      ∧ Forall (λ t, shape t = [2; 0]%nat ∧ data t = []) (tensors p).
Proof.
  split; [simpl; lia|]. eexists. split; [reflexivity|]. repeat constructor.
Qed.

Lemma pack_rejects_mismatch_witness :
  _pack_time_series
    [PList (replicate 3 (sample_step (1 # 2) (3 # 4)));
     PList (replicate 4 (sample_step (1 # 2) (3 # 4)))] = Err ValueError.
Proof.
  destruct (pack_rejects_mismatch
              [PList (replicate 3 (sample_step (1 # 2) (3 # 4)));
               PList (replicate 4 (sample_step (1 # 2) (3 # 4)))])
    as [Hreject _].
  - repeat constructor.
  - apply (Hreject (sample_step (1 # 2) (3 # 4))
             (replicate 2 (sample_step (1 # 2) (3 # 4)))
             [PList (replicate 4 (sample_step (1 # 2) (3 # 4)))]).
    + reflexivity.
    + simpl. lia.
    + left. eexists _, _. split_and!.
      * apply list_elem_of_here.
      * apply list_elem_of_further, list_elem_of_here.
      * simpl. lia.
Defined.

Example collate_rejects_3_and_4 :
  collate_fn [sample_example 3 1 1; sample_example 4 0 0] = Err ValueError.
Proof. reflexivity. Qed.

Lemma sample_batch_collate : collate_fn sample_pair = Ok sample_batch.
Proof. reflexivity. Qed.

Lemma ordered_batch_collate : collate_fn ordered_pair = Ok ordered_batch.
Proof. vm_compute. reflexivity. Qed.

Lemma collate_preserves_order_witness :
  shape (labels ordered_batch) = [2%nat]
  ∧ data (labels ordered_batch) !! 1%nat = Some (Fin 0)
  ∧ shape (is_train ordered_batch) = [2%nat]
  ∧ data (is_train ordered_batch) !! 1%nat = Some (Fin 0)
  ∧ shape (values (forward ordered_batch)) = [2; 2; 2]%nat
  ∧ data (values (forward ordered_batch)) !! (1 * (2 * 2) + 1 * 2 + 1)%nat
    = Some (Fin (11184811 # 33554432))
  ∧ shape (deltas (backward ordered_batch)) = [2; 2; 2]%nat
  ∧ data (deltas (backward ordered_batch)) !! (1 * (2 * 2) + 0 * 2 + 1)%nat
    = Some (Fin 1).
Proof.
  destruct (collate_preserves_order ordered_pair ordered_batch 1 ordered_example_1)
    as (fw & bw & lab & flag & Hfw & Hbw & Hlab & Hflag & _ & _ & _ & _ & _ & Hwf);
    [apply ordered_batch_collate|reflexivity|].
  destruct (Hwf 2%nat 2%nat) as ([Sl (ql & Hql & Dl)] & [Sf (qf & Hqf & Df)] & Hel).
  { repeat constructor. }
  injection Hlab as <-. injection Hflag as <-.
  injection Hql as <-. vm_compute in Hqf. injection Hqf as <-.
  destruct (Hel ("forward", forward) ("values", values)
              [sample_step 5 6; sample_step 7 (1 # 3)] 1%nat
              (sample_step 7 (1 # 3)) [PFloat 7; PFloat (1 # 3)] 1%nat
              (PFloat (1 # 3)))
    as [Sv (qv & Hqv & Dv)];
    [apply list_elem_of_here|apply list_elem_of_here|reflexivity..|].
  destruct (Hel ("backward", backward) ("deltas", deltas)
              [sample_step 7 (1 # 3); sample_step 5 6] 0%nat
              (sample_step 7 (1 # 3)) [PFloat 0; PFloat 1] 1%nat (PFloat 1))
    as [Sd (qd & Hqd & Dd)];
    [apply list_elem_of_further, list_elem_of_here
    |apply list_elem_of_further, list_elem_of_further, list_elem_of_here
    |reflexivity..|].
  injection Hqv as <-. injection Hqd as <-.
  split_and!; [exact Sl|exact Dl|exact Sf|exact Df|exact Sv|exact Dv|exact Sd|exact Dd].
Defined.

(** Labels 1.0 and 0.0 come out as [1.0, 0.0]. *)
Example sample_batch_labels :
  data (labels sample_batch) = [Fin 1; Fin 0]
  ∧ data (is_train sample_batch) = [Fin 1; Fin 0].
Proof. split; reflexivity. Qed.

(** The batch axis comes first, then time, then the feature: the values of
    the ordered pair, example after example and step after step, 0.1 and 1/3
    as the float32 numbers nearest to them. *)
Example ordered_batch_values :
  data (values (forward ordered_batch))
  = [Fin (13421773 # 134217728); Fin 2; Fin 3; Fin 4;
     Fin 5; Fin 6; Fin 7; Fin (11184811 # 33554432)].
Proof. reflexivity. Qed.

(** Narrowing to float32: 0.1 and 16777217 are not float32 numbers, and a
    number beyond the float32 range is stored as an infinity. *)
Example torch_tensor_narrows :
  data <$> torch_tensor
             [PFloat (1 # 10); PInt 16777217; PFloat (inject_Z (10 ^ 39));
              PInt (- 3)] Float32
  = Ok [Fin (13421773 # 134217728); Fin (inject_Z 16777216); Inf false;
        Fin (inject_Z (- 3))].
Proof. vm_compute. reflexivity. Qed.

(** C8 as stated fails: the line decodes to an object without forward and
    backward, and get(0) returns it. *)
Lemma getitem_returns_incomplete_record :
  ∃ rec, MySet.__getitem__ bare_set 0 = Ok rec
    ∧ subscript rec "forward" = Err KeyError
    ∧ subscript rec "backward" = Err KeyError.
Proof. eexists. split_and!; reflexivity. Qed.

Lemma getitem_errors_witness :
  (Decodes (PDict [("label", PFloat 1)]) = Undecodable →
   MySet.__getitem__ bare_set 0 = Err JSONDecodeError)
  ∧ (∀ v, Decodes (PDict [("label", PFloat 1)]) = Decodes v →
     (∀ kvs, v ≠ PDict kvs) → MySet.__getitem__ bare_set 0 = Err TypeError)
  ∧ (∀ kvs, Decodes (PDict [("label", PFloat 1)]) = Decodes (PDict kvs) →
     ∃ rec, MySet.__getitem__ bare_set 0 = Ok rec
       ∧ (∀ k, k ≠ "is_train" → subscript rec k = subscript (PDict kvs) k)
       ∧ (∀ k recs, k ∈ ["forward"; "backward"; "label"] →
          dict_get kvs k = None → rec ∈ recs → is_Err (collate_fn recs))).
Proof.
  apply (getitem_errors bare_set 0 (Decodes (PDict [("label", PFloat 1)]))).
  - unfold MySet.__len__. simpl. lia.
  - reflexivity.
Defined.

Example collate_incomplete_record :
  (MySet.__getitem__ bare_set 0 ≫= λ rec, collate_fn [rec]) = Err KeyError.
Proof. reflexivity. Qed.

Example getitem_undecodable :
  MySet.__getitem__
    {| MySet.content := [Undecodable]; MySet.val_indices := list_to_set [0] |} 0
  = Err JSONDecodeError.
Proof. reflexivity. Qed.

(** * Further properties *)

(** ** The validation size *)

Lemma val_size_le (n : Z) (r1 r2 : Q) :
  0 ≤ n → (r1 <= r2)%Q → MySet.val_size n r1 ≤ MySet.val_size n r2.
Proof.
  intros Hn Hr. unfold MySet.val_size.
  assert (0 <= rne binary64 (inject_Z n))%Q as Hn0.
  { apply rne_nonneg. change 0%Q with (inject_Z 0). rewrite <- Zle_Qle. lia. }
  pose proof (rne64_monotone _ _ Hr) as Hr'.
  pose proof (py_round_monotone _ _
                (rne64_monotone (rne binary64 (inject_Z n) * rne binary64 r1)
                   (rne binary64 (inject_Z n) * rne binary64 r2) ltac:(nra))).
  lia.
Qed.

(** X1: over the same number of lines, a larger val_ratio never gives a
    smaller validation size. *)
Theorem val_size_monotone (n : Z) (r1 r2 : Q) :
  0 ≤ n → (r1 <= r2)%Q → MySet.val_size n r1 ≤ MySet.val_size n r2.
Proof. apply val_size_le. Qed.

(** The same on line 31 itself: whenever it yields sizes for two ratios
    over the same number of lines, the sizes are ordered as the ratios. *)
Corollary val_sz_monotone (n : Z) (r1 r2 : Q) (k1 k2 : Z) :
  0 ≤ n → (r1 <= r2)%Q →
  MySet.val_sz n (Fin r1) = Ok k1 → MySet.val_sz n (Fin r2) = Ok k2 → k1 ≤ k2.
Proof.
  intros Hn Hr H1 H2. apply val_sz_Ok_val_size in H1 as ->, H2 as ->.
  by apply val_size_le.
Qed.

(** X2: the validation size is never more than one half below the float
    product of line 31, and unless it is the forced minimum of 1 it is never
    more than one half above it. *)
Theorem val_size_near_product (n : Z) (val_ratio : float) (k : Z) :
  MySet.val_sz n val_ratio = Ok k →
  ∃ x p,
    float_of_int n = Ok x ∧ float_mul x (double val_ratio) = Fin p
    ∧ (p - (1 # 2) <= inject_Z k)%Q
    ∧ (1 < k → (inject_Z k <= p + (1 # 2))%Q).
Proof.
  unfold MySet.val_sz. intros Hk.
  apply bind_Ok in Hk as (x & Hx & Hk). apply bind_Ok in Hk as (r & Hr & [= <-]).
  destruct (float_mul x (double val_ratio)) as [p| |] eqn:Hp; [|done..].
  injection Hr as <-. exists x, p. destruct (py_round_near p) as [Hlo Hhi].
  split_and!; [done..| |].
  - assert (inject_Z (py_round p) <= inject_Z (Z.max 1 (py_round p)))%Q as Hmax.
    { rewrite <- Zle_Qle. lia. }
    lra.
  - intros H1. by replace (Z.max 1 (py_round p)) with (py_round p) by lia.
Qed.

(** ** What a constructed dataset looks like *)

Section constructed.
Context `{Sampler}.

(** X3: whenever construction succeeds, the file exists and its lines are
    the content, the seed is not negative, and the validation set has exactly
    as many members as line 31 computes, for a finite val_ratio
    max(1, round(N * val_ratio)) on the float product, at least one and at
    most N, all of them indices of [0, N): a constructed dataset is never
    empty and never without a validation line. *)
Theorem init_Ok_inv (fs : FileSystem) path val_ratio seed self :
  MySet.__init__ fs path val_ratio seed = Ok self →
  fs !! path = Some (MySet.content self)
  ∧ 0 ≤ seed
  ∧ MySet.val_sz (MySet.__len__ self) val_ratio
    = Ok (Z.of_nat (size (MySet.val_indices self)))
  ∧ (∀ q : Q, val_ratio = Fin q →
       Z.of_nat (size (MySet.val_indices self))
       = MySet.val_size (MySet.__len__ self) q)
  ∧ 1 ≤ Z.of_nat (size (MySet.val_indices self)) ≤ MySet.__len__ self
  ∧ (∀ i, i ∈ MySet.val_indices self → 0 ≤ i < MySet.__len__ self).
Proof.
  intros Hinit.
  destruct (init_Ok_facts _ _ _ _ _ Hinit) as (Hfs & Hseed & Hsize & Hbound & Hrange).
  split_and!; [done|done|done| |lia|lia|done].
  intros q ->. by apply val_sz_Ok_val_size.
Qed.

(** X4: when line 31 computes a validation size equal to the number of
    lines (val_ratio = 1, or a single line), every index is a validation
    index: no line is left for training. *)
Theorem init_all_validation (fs : FileSystem) path val_ratio seed self :
  MySet.__init__ fs path val_ratio seed = Ok self →
  MySet.val_sz (MySet.__len__ self) val_ratio = Ok (MySet.__len__ self) →
  ∀ i, 0 ≤ i < MySet.__len__ self → i ∈ MySet.val_indices self.
Proof.
  intros Hinit Hall i Hi.
  destruct (init_inv _ _ _ _ _ Hinit) as (lines & k & _ & _ & Hk & _ & ->).
  unfold MySet.__len__ in *. cbn [MySet.content MySet.val_indices] in *.
  rewrite Hk in Hall. injection Hall as ->.
  apply elem_of_list_to_set.
  replace (Z.to_nat (Z.of_nat (length lines)))
    with (length (arange (Z.of_nat (length lines)))).
  - rewrite draw_all. unfold arange. apply elem_of_seqZ. lia.
  - unfold arange. rewrite length_seqZ. lia.
Qed.

(** X5: after construction the validation indices are indices of [0, N),
    as many as line 31 computes (for a finite val_ratio,
    max(1, round(N * val_ratio)) on the float product), and the indices of
    [0, N) outside them, the ones lookup tags as training, are N minus that
    number. *)
Theorem init_partition (fs : FileSystem) path val_ratio seed self k :
  MySet.__init__ fs path val_ratio seed = Ok self →
  MySet.val_sz (MySet.__len__ self) val_ratio = Ok k →
  let all : gset Z := list_to_set (arange (MySet.__len__ self)) in
  MySet.val_indices self ⊆ all
  ∧ Z.of_nat (size (MySet.val_indices self)) = k
  ∧ Z.of_nat (size (all ∖ MySet.val_indices self)) = MySet.__len__ self - k
  ∧ (∀ q : Q, val_ratio = Fin q → k = MySet.val_size (MySet.__len__ self) q).
Proof.
  intros Hinit Hk all. pose proof Hk as Hformula.
  destruct (init_Ok_facts _ _ _ _ _ Hinit) as (_ & _ & Hsize & Hbound & Hrange).
  rewrite Hk in Hsize. injection Hsize as ->.
  assert (MySet.val_indices self ⊆ all) as Hsub.
  { intros i Hi. apply elem_of_list_to_set. unfold arange. apply elem_of_seqZ.
    specialize (Hrange i Hi). lia. }
  split_and!; [done..| |].
  - rewrite size_difference by done. unfold all.
    rewrite size_list_to_set by apply NoDup_seqZ.
    unfold arange. rewrite length_seqZ. unfold MySet.__len__ in *. lia.
  - intros q ->. by apply val_sz_Ok_val_size.
Qed.

End constructed.

(** ** Lookup *)

(** X6: lookup raises IndexError exactly for an index below -N or from N
    on, whatever the lines hold. *)
Theorem getitem_IndexError_iff (self : MySet.t) (idx : Z) :
  MySet.__getitem__ self idx = Err IndexError
  ↔ idx < - MySet.__len__ self ∨ MySet.__len__ self ≤ idx.
Proof.
  unfold MySet.__getitem__, MySet.__len__, list_index.
  set (n := Z.of_nat (length (MySet.content self))).
  destruct (decide (idx < 0)) as [Hneg|Hpos].
  - destruct (decide (0 ≤ idx + n < n)) as [Hin|Hout].
    + destruct (lookup_lt_is_Some_2 (MySet.content self) (Z.to_nat (idx + n)))
        as [l Hl]; [lia|].
      rewrite Hl. simpl. split; [|lia].
      destruct l as [|v]; [done|]. simpl. by destruct v as [| | | | |vs|kvs].
    + split; [lia|done].
  - destruct (decide (0 ≤ idx < n)) as [Hin|Hout].
    + destruct (lookup_lt_is_Some_2 (MySet.content self) (Z.to_nat idx))
        as [l Hl]; [lia|].
      rewrite Hl. simpl. split; [|lia].
      destruct l as [|v]; [done|]. simpl. by destruct v as [| | | | |vs|kvs].
    + split; [lia|done].
Qed.

Lemma dict_set_keys_present kvs k v :
  k ∈ kvs.*1 → (dict_set kvs k v).*1 = kvs.*1.
Proof.
  induction kvs as [|[k' v'] kvs IH]; simpl.
  - by intros ?%elem_of_nil.
  - intros Hk. destruct (String.eqb k k') eqn:E; simpl; [done|].
    f_equal. apply IH. apply elem_of_cons in Hk as [->|Hk]; [|done].
    by rewrite String.eqb_refl in E.
Qed.

Lemma dict_set_keys_absent kvs k v :
  k ∉ kvs.*1 → dict_set kvs k v = kvs ++ [(k, v)].
Proof.
  induction kvs as [|[k' v'] kvs IH]; simpl; [done|].
  intros Hk. apply not_elem_of_cons in Hk as [Hne Hk].
  destruct (String.eqb k k') eqn:E.
  - apply String.eqb_eq in E. done.
  - by rewrite IH.
Qed.

(** X7: whatever lookup returns comes from a line that decodes to an
    object, and carries is_train = 0 or 1 by membership of the index as it was
    given; an is_train the line already had is overwritten in place, the keys
    staying as they were, and otherwise the entry is appended last. *)
Theorem getitem_sets_is_train (self : MySet.t) (idx : Z) (rec : value) :
  MySet.__getitem__ self idx = Ok rec →
  ∃ l kvs tag,
    list_index (MySet.content self) idx = Ok l
    ∧ l = Decodes (PDict kvs)
    ∧ tag = (if decide (idx ∈ MySet.val_indices self) then 0 else 1)
    ∧ subscript rec "is_train" = Ok (PInt tag)
    ∧ (("is_train" : string) ∈ kvs.*1 → ∃ kvs', rec = PDict kvs' ∧ kvs'.*1 = kvs.*1)
    ∧ (("is_train" : string) ∉ kvs.*1 → rec = PDict (kvs ++ [("is_train", PInt tag)])).
Proof.
  unfold MySet.__getitem__. intros Hget.
  apply bind_Ok in Hget as (l & Hl & Hget).
  apply bind_Ok in Hget as (v & Hv & Hget).
  destruct l as [|v']; [done|]. injection Hv as ->.
  destruct v as [| | | | | |kvs]; try done. injection Hget as <-.
  exists (Decodes (PDict kvs)), kvs, (if decide (idx ∈ MySet.val_indices self) then 0 else 1).
  split_and!; try done.
  - simpl. by rewrite dict_get_set_eq.
  - intros Hin. eexists. split; [done|]. by apply dict_set_keys_present.
  - intros Hout. by rewrite dict_set_keys_absent.
Qed.

(** ** Tensors of a batch *)


Lemma tensor_well_formed vals dt t :
  torch_tensor vals dt = Ok t →
  t_dtype t = dt ∧ length (data t) = numel (shape t).
Proof.
  unfold torch_tensor. intros Ht. apply bind_Ok in Ht as (sizes & Hsizes & Ht).
  destruct (decide (MAX_DIMS < length sizes)%nat); [done|].
  apply bind_Ok in Ht as (d & Hd & [= <-]). simpl. split; [done|].
  destruct (decide (numel sizes = 0%nat)) as [Hz|_].
  - injection Hd as <-. by rewrite Hz.
  - by eapply store_length.
Qed.

Lemma pack_well_formed recs p :
  _pack_time_series recs = Ok p →
  Forall (λ t, t_dtype t = Float32 ∧ length (data t) = numel (shape t)) (tensors p).
Proof.
  unfold _pack_time_series. intros Hp.
  do 6 (apply bind_Ok in Hp as (? & _ & Hp)).
  apply bind_Ok in Hp as (t1 & Ht1 & Hp). apply bind_Ok in Hp as (t2 & Ht2 & Hp).
  apply bind_Ok in Hp as (t3 & Ht3 & Hp). apply bind_Ok in Hp as (t4 & Ht4 & Hp).
  apply bind_Ok in Hp as (t5 & Ht5 & Hp). apply bind_Ok in Hp as (t6 & Ht6 & Hp).
  injection Hp as <-. unfold tensors, packed_fields.
  cbn [fmap list_fmap snd values masks deltas forwards evals eval_masks].
  repeat constructor; by eapply tensor_well_formed.
Qed.

(** X8: whenever collate returns a batch, on any input, each of its
    fourteen tensors has element type float32 and holds exactly as many
    elements as its shape announces. *)
Theorem collate_well_formed recs batch :
  collate_fn recs = Ok batch →
  Forall (λ t, t_dtype t = Float32 ∧ length (data t) = numel (shape t))
    (batch_tensors batch).
Proof.
  unfold collate_fn. intros Hc.
  apply bind_Ok in Hc as (fws & _ & Hc). apply bind_Ok in Hc as (bws & _ & Hc).
  apply bind_Ok in Hc as (pf & Hpf & Hc). apply bind_Ok in Hc as (pb & Hpb & Hc).
  apply bind_Ok in Hc as (lbls & _ & Hc). apply bind_Ok in Hc as (tl & Htl & Hc).
  apply bind_Ok in Hc as (flags & _ & Hc). apply bind_Ok in Hc as (tf & Htf & Hc).
  injection Hc as <-. unfold batch_tensors. cbn [forward backward labels is_train].
  apply Forall_cons_2; [by eapply tensor_well_formed|].
  apply Forall_cons_2; [by eapply tensor_well_formed|].
  apply Forall_app_2; by eapply pack_well_formed.
Qed.

(** ** Which error *)

Lemma mapM_Err_uniform {A B} (f : A → result B) (l : list A) e :
  Forall (λ x, is_Ok (f x) ∨ f x = Err e) l →
  Exists (λ x, f x = Err e) l →
  mapM f l = Err e.
Proof.
  intros Hall Hex. induction Hall as [|x l [[y Hy]|Hx] _ IH]; simpl.
  - by apply Exists_nil in Hex.
  - rewrite Hy. simpl. apply Exists_cons in Hex as [Hx|Hex]; [congruence|].
    by rewrite IH.
  - by rewrite Hx.
Qed.

Lemma mapM_Ok_or_Err {A B} (f : A → result B) (l : list A) e :
  Forall (λ x, is_Ok (f x) ∨ f x = Err e) l →
  is_Ok (mapM f l) ∨ mapM f l = Err e.
Proof.
  induction 1 as [|x l [[y Hy]|Hx] _ [[k Hk]|IH]]; simpl.
  - left. by eexists.
  - rewrite Hy, Hk. left. by eexists.
  - rewrite Hy, IH. by right.
  - rewrite Hx. by right.
  - rewrite Hx. by right.
Qed.

Lemma dict_subscript x k :
  is_dict x = true → is_Ok (subscript x k) ∨ subscript x k = Err KeyError.
Proof.
  destruct x; try done. intros _. simpl.
  destruct (dict_get kvs k); [left; by eexists|by right].
Qed.

(** X9: on a list of objects one of which lacks forward or backward,
    collate raises KeyError, before anything is packed. *)
Theorem collate_missing_sequence recs :
  Forall (λ x, is_dict x = true) recs →
  Exists (λ x, subscript x "forward" = Err KeyError
               ∨ subscript x "backward" = Err KeyError) recs →
  collate_fn recs = Err KeyError.
Proof.
  intros Hdicts Hex. unfold collate_fn.
  assert (∀ k, Forall (λ x, is_Ok (subscript x k) ∨ subscript x k = Err KeyError) recs)
    as Hcases.
  { intros k. eapply Forall_impl; [done|]. intros x Hx. by apply dict_subscript. }
  destruct (mapM_Ok_or_Err _ _ _ (Hcases "forward")) as [[fws Hfws]| ->]; [|done].
  rewrite Hfws. run.
  rewrite (mapM_Err_uniform _ _ KeyError (Hcases "backward")); [done|].
  apply Exists_exists in Hex as (x & Hx & [Hfw|Hbw]).
  - apply mapM_Ok in Hfws. apply list_elem_of_lookup in Hx as [i Hi].
    destruct (Forall2_lookup_l _ _ _ _ _ Hfws Hi) as (y & _ & Hy). congruence.
  - apply Exists_exists. by exists x.
Qed.

Lemma inner_field_dicts r k :
  is_dict_list r = true →
  is_Ok (inner_field r k) ∨ inner_field r k = Err KeyError.
Proof.
  destruct r; try done. simpl. intros Hl. unfold inner_field. simpl.
  destruct (mapM_Ok_or_Err (λ x, subscript x k) l KeyError) as [[vs ->]| ->].
  - apply Forall_forall. intros x Hx. apply dict_subscript.
    rewrite forallb_forall in Hl. apply Hl. by apply list_elem_of_In.
  - left. by eexists.
  - by right.
Qed.

Lemma inner_field_missing r k :
  is_dict_list r = true →
  Exists (λ x, subscript x k = Err KeyError) (items r) →
  inner_field r k = Err KeyError.
Proof.
  destruct r; try done. simpl. intros Hl Hex. unfold inner_field. simpl.
  rewrite (mapM_Err_uniform _ _ KeyError); [done| |done].
  apply Forall_forall. intros x Hx. apply dict_subscript.
  rewrite forallb_forall in Hl. apply Hl. by apply list_elem_of_In.
Qed.

(** X10: on sequences that are lists of objects, a time step that lacks one
    of the six fields makes the packer raise KeyError. *)
Theorem pack_missing_field recs k :
  Forall (λ r, is_dict_list r = true) recs →
  k ∈ field_names →
  Exists (λ x, subscript x k = Err KeyError) (steps recs) →
  _pack_time_series recs = Err KeyError.
Proof.
  intros Hrecs Hk Hex.
  assert (∀ k', is_Ok (nested_field recs k') ∨ nested_field recs k' = Err KeyError)
    as Hcases.
  { intros k'. apply mapM_Ok_or_Err. eapply Forall_impl; [done|].
    intros r Hr. by apply inner_field_dicts. }
  assert (nested_field recs k = Err KeyError) as Hmiss.
  { apply mapM_Err_uniform.
    - eapply Forall_impl; [done|]. intros r Hr. by apply inner_field_dicts.
    - apply Exists_exists in Hex as (x & Hx & Hkey).
      apply elem_of_steps in Hx as (r & Hr & Hx).
      apply Exists_exists. exists r. split; [done|].
      apply inner_field_missing.
      + by apply (proj1 (Forall_forall _ _) Hrecs).
      + apply Exists_exists. by exists x. }
  unfold _pack_time_series.
  destruct (Hcases "values") as [[v1 H1]|H1]; rewrite H1; [|done]. run.
  destruct (Hcases "masks") as [[v2 H2]|H2]; rewrite H2; [|done]. run.
  destruct (Hcases "deltas") as [[v3 H3]|H3]; rewrite H3; [|done]. run.
  destruct (Hcases "forwards") as [[v4 H4]|H4]; rewrite H4; [|done]. run.
  destruct (Hcases "evals") as [[v5 H5]|H5]; rewrite H5; [|done]. run.
  destruct (Hcases "eval_masks") as [[v6 H6]|H6]; rewrite H6; [|done].
  exfalso. apply list_elem_of_In in Hk. simpl in Hk.
  destruct Hk as [<-|[<-|[<-|[<-|[<-|[<-|[]]]]]]]; congruence.
Qed.

(** ** What the packer reads *)

Lemma mapM_ext2 {A B} (f g : A → result B) (l l' : list A) :
  Forall2 (λ x y, f x = g y) l l' → mapM f l = mapM g l'.
Proof.
  induction 1 as [|x y l l' Hxy _ IH]; simpl; [done|]. by rewrite Hxy, IH.
Qed.

(** X11: collate reads its records through forward, backward, label and
    is_train only: two lists whose records agree on these four give the same
    batch, or the same error. *)
Theorem collate_reads_four_keys recs recs' :
  Forall2 (λ x y, ∀ k, k ∈ ["forward"; "backward"; "label"; "is_train"] →
                       subscript x k = subscript y k) recs recs' →
  collate_fn recs = collate_fn recs'.
Proof.
  intros Hagree. unfold collate_fn.
  assert (∀ k, k ∈ ["forward"; "backward"; "label"; "is_train"] →
            mapM (λ x, subscript x k) recs = mapM (λ x, subscript x k) recs') as Heq.
  { intros k Hk. apply mapM_ext2. eapply Forall2_impl; [done|].
    intros x y Hxy. by apply Hxy. }
  rewrite (Heq "forward"), (Heq "backward"), (Heq "label"), (Heq "is_train");
    first done; apply list_elem_of_In; simpl; tauto.
Qed.

(** ** Where an element lands *)

(** X12: in a field tensor of shape [B, T, F] with T, F > 0, the element at
    row-major position b*T*F + t*F + f is feature f of time step t of example
    b in that field and direction, as the float32 number nearest to the
    double it is read as: the axes are batch, time, feature, and no value
    is moved. *)
Theorem collate_element recs batch dir fld B T F b x steps t step vec f v :
  collate_fn recs = Ok batch →
  dir ∈ directions → fld ∈ packed_fields →
  shape (fld.2 (dir.2 batch)) = [B; T; F] → T ≠ 0%nat → F ≠ 0%nat →
  recs !! b = Some x →
  subscript x dir.1 = Ok (PList steps) → steps !! t = Some step →
  subscript step fld.1 = Ok (PList vec) → vec !! f = Some v →
  ∃ q, unpack_double v = Ok q
       ∧ data (fld.2 (dir.2 batch)) !! (b * (T * F) + t * F + f)%nat = Some (single q).
Proof. apply collate_element_at. Qed.

(** ** The loader *)

Lemma or_2_range (x : option Z) :
  (∀ c, x = Some c → 0 ≤ c) → 1 ≤ Z.min 2 (or_2 x) ≤ 2.
Proof.
  intros Hx. unfold or_2. destruct x as [c|]; [|lia].
  specialize (Hx c eq_refl). destruct (decide (c = 0)); lia.
Qed.

Section loader.
Context `{Sampler}.

(** X13: get_loader raises FileNotFoundError when ./json/json is missing
    and ValueError when it has no line, fails for a batch size below 1, and
    returns a loader exactly when the file has a line and the batch size is at
    least 1. *)
Theorem get_loader_failures host bsz shuf :
  (∀ c, cpu_count host = Some c → 0 ≤ c) →
  (files host !! "./json/json" = None →
   get_loader host bsz shuf = Err FileNotFoundError)
  ∧ (files host !! "./json/json" = Some [] →
     get_loader host bsz shuf = Err ValueError)
  ∧ (bsz ≤ 0 → is_Err (get_loader host bsz shuf))
  ∧ (is_Ok (get_loader host bsz shuf)
     ↔ (∃ lines, files host !! "./json/json" = Some lines ∧ lines ≠ [])
       ∧ 1 ≤ bsz).
Proof.
  intros Hcpu. pose proof (or_2_range _ Hcpu) as Hw.
  unfold get_loader.
  destruct (files host !! "./json/json") as [lines|] eqn:Hfs.
  - rewrite (init_unfold _ _ _ (1 # 5) 42 Hfs).
    pose proof (fs_lookup_within _ _ _ Hfs) as Hwithin.
    rewrite (val_sz_finite _ (1 # 5) Hwithin) by done.
    destruct (decide (42 < 0)); [lia|].
    pose proof (val_size_pos (Z.of_nat (length lines)) (1 # 5)) as Hpos.
    destruct lines as [|l lines].
    + destruct (decide (_ < _)) as [_|Hge]; [|cbn [length] in Hge, Hpos; lia].
      destruct (decide (_ ∨ _)) as [_|Hnz]; [|destruct Hnz; by left].
      run. split_and!; [done|done|by eexists|].
      split; [by intros [? ?]|]. by intros [(lines & [= <-] & Hne) _].
    + pose proof (val_size_fifth (Z.of_nat (length (l :: lines)))
                    ltac:(simpl; lia)) as Hsz.
      destruct (decide (_ < _)); [lia|]. run. unfold new_DataLoader.
      destruct (decide (Z.min 2 (or_2 (cpu_count host)) < 0)); [lia|].
      replace (bool_decide (MySet.__len__ _ ≤ 0)) with false.
      2:{ symmetry. apply bool_decide_eq_false. unfold MySet.__len__. simpl. lia. }
      rewrite andb_false_r.
      destruct (decide (bsz ≤ 0)).
      * split_and!; [done|done|by eexists|].
        split; [by intros [? ?]|]. intros [_ ?]. lia.
      * split_and!; [done|done|lia|].
        split; [|by eexists]. intros _. split; [|lia]. by exists (l :: lines).
  - unfold MySet.__init__. rewrite Hfs. simpl.
    split_and!; [done|done|by eexists|].
    split; [by intros [? ?]|]. by intros [(lines & ? & _) _].
Qed.

(** X14: the loader get_loader returns holds the lines of ./json/json, at
    least one, with max(1, round(N / 5)) validation indices; it has one or
    two workers, one exactly when the host reports a single processor; it
    keeps the batch size and shuffle flag it was given, pins memory exactly
    when CUDA is available, and does not drop the last batch. *)
Theorem get_loader_Ok host bsz shuf loader :
  (∀ c, cpu_count host = Some c → 0 ≤ c) →
  get_loader host bsz shuf = Ok loader →
  files host !! "./json/json" = Some (MySet.content (dataset loader))
  ∧ 1 ≤ MySet.__len__ (dataset loader)
  ∧ Z.of_nat (size (MySet.val_indices (dataset loader)))
    = MySet.val_size (MySet.__len__ (dataset loader)) (1 # 5)
  ∧ 1 ≤ num_workers loader ≤ 2
  ∧ (num_workers loader = 1 ↔ cpu_count host = Some 1)
  ∧ batch_size loader = bsz ∧ 1 ≤ bsz
  ∧ shuffle loader = shuf
  ∧ pin_memory loader = cuda_available host
  ∧ drop_last loader = false.
Proof.
  intros Hcpu Hload. pose proof (or_2_range _ Hcpu) as Hw.
  unfold get_loader in Hload. apply bind_Ok in Hload as (ds & Hds & Hload).
  unfold new_DataLoader in Hload.
  destruct (decide (_ < 0)); [done|].
  destruct (_ && _); [done|].
  destruct (decide (bsz ≤ 0)); [done|]. injection Hload as <-. simpl.
  destruct (init_Ok_facts _ _ _ _ _ Hds) as (Hfs & _ & Hsize & Hbound & _).
  pose proof (fs_lookup_within _ _ _ Hfs) as Hwithin.
  unfold MySet.__len__ in Hsize at 1.
  rewrite (val_sz_finite _ (1 # 5) Hwithin) in Hsize by done.
  injection Hsize as Hsize.
  split_and!; try done; try lia.
  unfold or_2. destruct (cpu_count host) as [c|] eqn:Hc.
  - specialize (Hcpu c eq_refl). destruct (decide (c = 0)).
    + split; [lia|]. intros [= ->]. lia.
    + split; [intros; f_equal; lia|]. intros [= ->]. lia.
  - split; [lia|done].
Qed.

End loader.

Lemma batch_sampler_spec (bs : nat) (sampler batch : list Z) :
  (length batch < bs)%nat →
  let out := batch_sampler bs false sampler batch in
  concat out = batch ++ sampler
  ∧ Forall (λ b, 0 < length b ≤ bs)%nat out
  ∧ (∀ i b, out !! i = Some b → (S i < length out)%nat → length b = bs)
  ∧ length out = ((length batch + length sampler + (bs - 1)) / bs)%nat.
Proof.
  revert batch. induction sampler as [|idx sampler IH]; intros batch Hlt; simpl.
  - rewrite app_nil_r, Nat.add_0_r.
    destruct (decide (0 < length batch)%nat) as [Hpos|Hzero].
    + rewrite bool_decide_eq_true_2 by done. simpl. split_and!.
      * by rewrite app_nil_r.
      * repeat constructor; lia.
      * intros [|i] b; simpl; [lia|done].
      * apply (Nat.div_unique _ _ _ (length batch - 1)); lia.
    + rewrite bool_decide_eq_false_2 by done. simpl.
      destruct batch; [|simpl in Hzero; lia]. simpl.
      split_and!; [done|done|done|]. rewrite Nat.div_small; lia.
  - destruct (decide (length (batch ++ [idx]) = bs)) as [Hfull|Hnot].
    + destruct (IH [] ltac:(simpl; lia)) as (Hcat & Hall & Hlast & Hlen).
      simpl in *. split_and!.
      * by rewrite Hcat, <- app_assoc.
      * constructor; [lia|done].
      * intros [|i] b; simpl.
        -- by intros [= <-] _.
        -- intros Hb Hi. apply (Hlast i b Hb). lia.
      * rewrite Hlen. rewrite length_app in Hfull. simpl in Hfull.
        replace (length batch + S (length sampler) + (bs - 1))%nat
          with (1 * bs + (length sampler + (bs - 1)))%nat by lia.
        rewrite Nat.div_add_l by lia. lia.
    + rewrite length_app in Hnot. simpl in Hnot.
      destruct (IH (batch ++ [idx])) as (Hcat & Hall & Hlast & Hlen).
      { rewrite length_app. simpl. lia. }
      split_and!; [|done|done|].
      * by rewrite Hcat, <- app_assoc.
      * rewrite Hlen, length_app. simpl. f_equal. lia.
Qed.

(** X15: with drop_last off and a batch size of at least 1, the batches
    cut from an order of indices, put end to end, are that order: no index
    is dropped or repeated.  Every batch is non-empty and within the batch
    size, all but the last are full, and there are ceil(len / batch_size)
    of them. *)
Theorem batches_partition (loader : DataLoader) (order : list Z) :
  1 ≤ batch_size loader → drop_last loader = false →
  concat (batches loader order) = order
  ∧ Forall (λ b, 0 < Z.of_nat (length b) ≤ batch_size loader) (batches loader order)
  ∧ (∀ i b, batches loader order !! i = Some b →
            (S i < length (batches loader order))%nat →
            Z.of_nat (length b) = batch_size loader)
  ∧ Z.of_nat (length (batches loader order))
    = (Z.of_nat (length order) + batch_size loader - 1) / batch_size loader.
Proof.
  intros Hbs Hdrop. unfold batches. rewrite Hdrop.
  destruct (batch_sampler_spec (Z.to_nat (batch_size loader)) order [])
    as (Hcat & Hall & Hlast & Hlen); [simpl; lia|]. simpl in *.
  split_and!; [done| | |].
  - eapply Forall_impl; [done|]. simpl. lia.
  - intros i b Hb Hi. rewrite (Hlast i b Hb Hi). lia.
  - rewrite Hlen, Nat2Z.inj_div. f_equal; lia.
Qed.

Lemma getitem_Ok_tag self idx rec :
  MySet.__getitem__ self idx = Ok rec →
  subscript rec "is_train"
  = Ok (PInt (if decide (idx ∈ MySet.val_indices self) then 0 else 1)).
Proof.
  unfold MySet.__getitem__. intros Hget.
  apply bind_Ok in Hget as (l & _ & Hget). apply bind_Ok in Hget as (v & _ & Hget).
  destruct v; try done. injection Hget as <-. simpl. by rewrite dict_get_set_eq.
Qed.

(** X16: in a batch fetched for a list of indices, is_train is a vector as
    long as the list, and its element b is 0.0 when the b-th index is a
    validation index and 1.0 when it is not. *)
Theorem fetch_is_train (loader : DataLoader) (idxs : list Z) (batch : Batch) b idx :
  loader_collate_fn loader = collate_fn →
  fetch loader idxs = Ok batch →
  idxs !! b = Some idx →
  shape (is_train batch) = [length idxs]
  ∧ data (is_train batch) !! b
    = Some (Fin (if decide (idx ∈ MySet.val_indices (dataset loader))
                 then 0 else 1)).
Proof.
  intros Hcollate Hfetch Hb. unfold fetch in Hfetch. rewrite Hcollate in Hfetch.
  apply bind_Ok in Hfetch as (recs & Hrecs & Hc). unfold collate_fn in Hc.
  apply bind_Ok in Hc as (fws & _ & Hc). apply bind_Ok in Hc as (bws & _ & Hc).
  apply bind_Ok in Hc as (pf & _ & Hc). apply bind_Ok in Hc as (pb & _ & Hc).
  apply bind_Ok in Hc as (lbls & _ & Hc). apply bind_Ok in Hc as (tl & _ & Hc).
  apply bind_Ok in Hc as (flags & Hflags & Hc). apply bind_Ok in Hc as (tf & Htf & Hc).
  injection Hc as <-. cbn [is_train].
  assert (∀ i j, idxs !! i = Some j →
            flags !! i = Some (PInt (if decide (j ∈ MySet.val_indices (dataset loader))
                                     then 0 else 1))) as Hflag.
  { intros i j Hi.
    destruct (mapM_lookup _ _ _ _ _ Hrecs Hi) as (rec & Hrec & Hget).
    destruct (mapM_lookup _ _ _ _ _ Hflags Hrec) as (flag & Hflag & Hsub).
    rewrite (getitem_Ok_tag _ _ _ Hget) in Hsub. by injection Hsub as <-. }
  assert (length flags = length idxs) as Hlen.
  { rewrite (mapM_length _ _ _ Hflags). by rewrite (mapM_length _ _ _ Hrecs). }
  pose proof (proj1 (torch_tensor_Ok _ _ _ Htf)) as Hdt.
  assert (shape tf = [length idxs]) as Hshape.
  { apply torch_tensor_Ok in Htf as (_ & Hsizes & _).
    destruct idxs as [|j idxs]; [done|].
    pose proof (Hflag 0%nat j eq_refl) as H0.
    destruct flags as [|flag flags]; [done|]. simpl in H0. injection H0 as ->.
    simpl in Hsizes. injection Hsizes as <-. simpl in *. f_equal. lia. }
  split; [done|].
  destruct (comes_from_scalar tf b
              (PInt (if decide (idx ∈ MySet.val_indices (dataset loader)) then 0 else 1))
              (length idxs) Hshape) as (q & Hq & Hdata).
  - by eapply lookup_lt_Some.
  - eapply tensor_entry; [done|]. by apply Hflag.
  - rewrite Hdata, Hdt. f_equal. revert Hq.
    destruct (decide (idx ∈ _)); intros Hq; vm_compute in Hq;
      injection Hq as <-; reflexivity.
Qed.

(** ** The further properties, run on the sample data *)

Lemma val_size_monotone_witness :
  MySet.val_size 10 (1 # 5) ≤ MySet.val_size 10 (1 # 2).
Proof. apply (val_size_monotone 10 (1 # 5) (1 # 2)); [lia|discriminate]. Defined.

Lemma val_size_near_product_witness :
  ∃ x p,
    float_of_int 5 = Ok x ∧ float_mul x (double (7 # 10)) = Fin p
    ∧ (p - (1 # 2) <= inject_Z 4)%Q
    ∧ (1 < 4 → (inject_Z 4 <= p + (1 # 2))%Q).
Proof. apply (val_size_near_product 5 (7 # 10) 4). vm_compute. reflexivity. Defined.

Lemma init_Ok_inv_witness :
  sample_fs !! sample_path = Some (MySet.content sample_set)
  ∧ 0 ≤ 42
  ∧ MySet.val_sz (MySet.__len__ sample_set) (1 # 2)
    = Ok (Z.of_nat (size (MySet.val_indices sample_set)))
  ∧ Z.of_nat (size (MySet.val_indices sample_set))
    = MySet.val_size (MySet.__len__ sample_set) (1 # 2)
  ∧ 1 ≤ Z.of_nat (size (MySet.val_indices sample_set)) ≤ MySet.__len__ sample_set
  ∧ (∀ i, i ∈ MySet.val_indices sample_set → 0 ≤ i < MySet.__len__ sample_set).
Proof.
  destruct (init_Ok_inv (H:=rotating_sampler) sample_fs sample_path (1 # 2) 42
              sample_set) as (Hfs & Hseed & Hsz & Hformula & Hbound & Hrange);
    [vm_compute; reflexivity|].
  split_and!; [done..|by apply Hformula|apply Hbound|apply Hbound|done].
Defined.

Lemma init_all_validation_witness : 4 ∈ MySet.val_indices full_set.
Proof.
  apply (init_all_validation (H:=rotating_sampler) sample_fs sample_path 1 42).
  - vm_compute. reflexivity.
  - vm_compute. reflexivity.
  - unfold MySet.__len__. simpl. lia.
Defined.

Lemma init_partition_witness :
  MySet.val_indices sample_set ⊆ list_to_set (arange (MySet.__len__ sample_set))
  ∧ Z.of_nat (size (MySet.val_indices sample_set)) = 2
  ∧ Z.of_nat (size (list_to_set (arange (MySet.__len__ sample_set))
                      ∖ MySet.val_indices sample_set))
    = MySet.__len__ sample_set - 2
  ∧ 2 = MySet.val_size (MySet.__len__ sample_set) (1 # 2).
Proof.
  destruct (init_partition (H:=rotating_sampler) sample_fs sample_path (1 # 2) 42
              sample_set 2) as (Hsub & Hval & Hrest & Hformula);
    [vm_compute; reflexivity..|].
  split_and!; [done..|by apply Hformula].
Defined.

Lemma getitem_sets_is_train_witness :
  ∃ l kvs tag,
    list_index (MySet.content bare_set) 0 = Ok l
    ∧ l = Decodes (PDict kvs)
    ∧ tag = (if decide (0 ∈ MySet.val_indices bare_set) then 0 else 1)
    ∧ subscript (PDict [("label", PFloat 1); ("is_train", PInt 0)]) "is_train"
      = Ok (PInt tag)
    ∧ (("is_train" : string) ∈ kvs.*1 →
       ∃ kvs', PDict [("label", PFloat 1); ("is_train", PInt 0)] = PDict kvs'
               ∧ kvs'.*1 = kvs.*1)
    ∧ (("is_train" : string) ∉ kvs.*1 →
       PDict [("label", PFloat 1); ("is_train", PInt 0)]
       = PDict (kvs ++ [("is_train", PInt tag)])).
Proof.
  apply (getitem_sets_is_train bare_set 0
           (PDict [("label", PFloat 1); ("is_train", PInt 0)])).
  reflexivity.
Defined.

Lemma collate_well_formed_witness :
  Forall (λ t, t_dtype t = Float32 ∧ length (data t) = numel (shape t))
    (batch_tensors sample_batch).
Proof. apply (collate_well_formed sample_pair sample_batch). reflexivity. Defined.

Lemma collate_missing_sequence_witness :
  collate_fn [sample_example 3 1 1; PDict [("label", PFloat 1); ("is_train", PInt 0)]]
  = Err KeyError.
Proof.
  apply collate_missing_sequence.
  - repeat constructor.
  - apply Exists_cons_tl, Exists_cons_hd. left. reflexivity.
Defined.

Lemma pack_missing_field_witness :
  _pack_time_series
    [PList [sample_step (1 # 2) (3 # 4); PDict [("values", PList [PInt 1; PInt 2])]]]
  = Err KeyError.
Proof.
  apply (pack_missing_field _ "masks").
  - repeat constructor.
  - apply list_elem_of_In. simpl. tauto.
  - apply Exists_cons_tl, Exists_cons_hd. reflexivity.
Defined.

Lemma collate_reads_four_keys_witness :
  collate_fn sample_pair = collate_fn sample_pair_with_id.
Proof.
  apply collate_reads_four_keys. unfold sample_pair, sample_pair_with_id.
  repeat constructor; intros k Hk; apply list_elem_of_In in Hk; simpl in Hk;
    destruct Hk as [<-|[<-|[<-|[<-|[]]]]]; reflexivity.
Defined.

Lemma collate_element_witness :
  ∃ q, unpack_double (PFloat (3 # 4)) = Ok q
       ∧ data (values (forward sample_batch)) !! (1 * (3 * 2) + 2 * 2 + 1)%nat
         = Some (single q).
Proof.
  apply (collate_element sample_pair sample_batch ("forward", forward)
           ("values", values) 2 3 2 1 (sample_example 3 0 0)
           (replicate 3 (sample_step (1 # 2) (3 # 4))) 2
           (sample_step (1 # 2) (3 # 4)) [PFloat (1 # 2); PFloat (3 # 4)] 1).
  - reflexivity.
  - apply list_elem_of_here.
  - apply list_elem_of_here.
  - reflexivity.
  - lia.
  - lia.
  - reflexivity.
  - reflexivity.
  - reflexivity.
  - reflexivity.
  - reflexivity.
Defined.

Lemma get_loader_failures_witness :
  (files sample_host !! "./json/json" = None →
   get_loader (H:=rotating_sampler) sample_host 2 false = Err FileNotFoundError)
  ∧ (files sample_host !! "./json/json" = Some [] →
     get_loader (H:=rotating_sampler) sample_host 2 false = Err ValueError)
  ∧ (2 ≤ 0 → is_Err (get_loader (H:=rotating_sampler) sample_host 2 false))
  ∧ (is_Ok (get_loader (H:=rotating_sampler) sample_host 2 false)
     ↔ (∃ lines, files sample_host !! "./json/json" = Some lines ∧ lines ≠ [])
       ∧ 1 ≤ 2).
Proof.
  apply (get_loader_failures (H:=rotating_sampler) sample_host 2 false).
  intros c [= <-]. lia.
Defined.

Lemma sample_loader_get_loader :
  get_loader (H:=rotating_sampler) sample_host 2 false = Ok sample_loader.
Proof.
  unfold get_loader.
  assert (MySet.__init__ (H:=rotating_sampler) (files sample_host) "./json/json"
            (1 # 5) 42 = Ok (dataset sample_loader)) as ->
    by (vm_compute; reflexivity).
  reflexivity.
Qed.

Lemma get_loader_Ok_witness :
  files sample_host !! "./json/json" = Some (MySet.content (dataset sample_loader))
  ∧ 1 ≤ MySet.__len__ (dataset sample_loader)
  ∧ Z.of_nat (size (MySet.val_indices (dataset sample_loader)))
    = MySet.val_size (MySet.__len__ (dataset sample_loader)) (1 # 5)
  ∧ 1 ≤ num_workers sample_loader ≤ 2
  ∧ (num_workers sample_loader = 1 ↔ cpu_count sample_host = Some 1)
  ∧ batch_size sample_loader = 2 ∧ 1 ≤ 2
  ∧ shuffle sample_loader = false
  ∧ pin_memory sample_loader = cuda_available sample_host
  ∧ drop_last sample_loader = false.
Proof.
  apply (get_loader_Ok (H:=rotating_sampler) sample_host 2 false sample_loader).
  - intros c [= <-]. lia.
  - apply sample_loader_get_loader.
Defined.

Lemma batches_partition_witness :
  concat (batches sample_loader (arange 5)) = arange 5
  ∧ Forall (λ b, 0 < Z.of_nat (length b) ≤ batch_size sample_loader)
      (batches sample_loader (arange 5))
  ∧ (∀ i b, batches sample_loader (arange 5) !! i = Some b →
            (S i < length (batches sample_loader (arange 5)))%nat →
            Z.of_nat (length b) = batch_size sample_loader)
  ∧ Z.of_nat (length (batches sample_loader (arange 5)))
    = (Z.of_nat (length (arange 5)) + batch_size sample_loader - 1)
      / batch_size sample_loader.
Proof.
  apply (batches_partition sample_loader (arange 5)); [simpl; lia|reflexivity].
Defined.

Example sample_batches :
  batches sample_loader (arange 5) = [[0; 1]; [2; 3]; [4]].
Proof. reflexivity. Qed.

Lemma fetch_is_train_witness :
  shape (is_train sample_fetch) = [length [2; 3]]
  ∧ data (is_train sample_fetch) !! 1%nat
    = Some (Fin (if decide (3 ∈ MySet.val_indices (dataset sample_loader))
                 then 0 else 1)).
Proof.
  apply (fetch_is_train sample_loader [2; 3] sample_fetch 1 3); reflexivity.
Defined.

(** Index 2 is the validation line of the loader's dataset, index 3 is not. *)
Example sample_fetch_is_train : data (is_train sample_fetch) = [Fin 0; Fin 1].
Proof. reflexivity. Qed.
